(** * react-custom-clock: configuration merging and rotation engine

    A shallow embedding of [src/utils.ts] ([isObject], [defaultFill]) and of
    the arithmetic of [src/Clock.tsx] ([ClockHand], [ClockInterface], [Clock]).

    JavaScript objects live in a store addressed by locations, so that
    aliasing, in-place assignment and the freshness of [structuredClone] are
    visible.  A record inherits the properties of [Object.prototype], which
    [key in o] and [o[key]] see.  Numbers are IEEE 754 binary64 values
    (Rocq's primitive floats), which is what a JavaScript [number] is. *)

From Stdlib Require Import ZArith Floats Uint63 Lia.
From stdpp Require Import base tactics option list strings pretty.

Set Warnings "-register-all,-inexact-float".
Local Open Scope list_scope.

(** ** JavaScript values and the object store *)

Module JS.

Abbreviation loc := nat.

(** The built-in objects that a read through the prototype chain of a record
    can yield: [Object.prototype] itself (the value of [o.__proto__]) and the
    built-in functions it holds, named by their path. *)
Inductive native : Type :=
| ObjectPrototype
| NativeFunction (name : string).

(** A JavaScript value: the primitives, a reference to an object of the
    store, or a built-in object. *)
Inductive value : Type :=
| VUndefined
| VNull
| VBool (b : bool)
| VNum (x : float)
| VStr (s : string)
| VBigInt (z : Z)
| VSymbol (id : nat)
| VRef (l : loc)
| VNative (b : native).

(** What [isObject] and [typeof] can tell apart about an object.  [KPlain] is
    an ordinary object whose prototype is [Object.prototype]: what an object
    literal, [JSON.parse] and [structuredClone] produce. *)
Inductive okind : Type :=
| KPlain | KArray | KRegExp | KDate | KSet | KMap | KFunction.

(** An object: its kind and its own enumerable properties in enumeration
    order.  Array elements and the contents of the built-in containers are
    kept as properties as well.  The prototype of an object follows from its
    kind; the chain is modelled for the objects whose properties the program
    reads, which are those that pass [isObject]: there it is
    [Object.prototype]. *)
Record obj : Type := Obj { kind : okind; props : list (string * value) }.

Abbreviation heap := (list obj).

Definition okind_eqb (a b : okind) : bool :=
  match a, b with
  | KPlain, KPlain | KArray, KArray | KRegExp, KRegExp | KDate, KDate
  | KSet, KSet | KMap, KMap | KFunction, KFunction => true
  | _, _ => false
  end.

(** Dereferencing.  A reference that points outside the store reads as an
    empty record; stores are kept closed (see [closed]), so this never
    happens on the inputs the theorems talk about. *)
Definition lookup_obj (h : heap) (l : loc) : obj :=
  match h !! l with
  | Some o => o
  | None => Obj KPlain []
  end.

Fixpoint get_prop (key : string) (ps : list (string * value)) : value :=
  match ps with
  | [] => VUndefined
  | (k, v) :: ps' => if String.eqb k key then v else get_prop key ps'
  end.

Fixpoint has_prop (key : string) (ps : list (string * value)) : bool :=
  match ps with
  | [] => false
  | (k, _) :: ps' => String.eqb k key || has_prop key ps'
  end.

(** [o[key] = v] on the property list: an existing key keeps its place, a
    new key goes last. *)
Fixpoint set_prop (key : string) (v : value) (ps : list (string * value))
  : list (string * value) :=
  match ps with
  | [] => [(key, v)]
  | (k, w) :: ps' =>
      if String.eqb k key then (k, v) :: ps' else (k, w) :: set_prop key v ps'
  end.

(** The own properties of [Object.prototype]; none is enumerable. *)
Definition Object_prototype_keys : list string :=
  ["constructor"; "__defineGetter__"; "__defineSetter__"; "hasOwnProperty";
   "__lookupGetter__"; "__lookupSetter__"; "isPrototypeOf";
   "propertyIsEnumerable"; "toString"; "valueOf"; "__proto__";
   "toLocaleString"].

(** [key in Object.prototype] *)
Definition Object_prototype_has (key : string) : bool :=
  existsb (String.eqb key) Object_prototype_keys.

(** Reading [key] on [Object.prototype] for a receiver whose prototype is
    [proto]: [__proto__] is an accessor that returns the receiver's
    prototype, [constructor] is [Object], the others are the functions of
    that name. *)
Definition Object_prototype_get (proto : value) (key : string) : value :=
  if String.eqb key "__proto__" then proto
  else if String.eqb key "constructor" then VNative (NativeFunction "Object")
  else if Object_prototype_has key
       then VNative (NativeFunction ("Object.prototype." ++ key))
       else VUndefined.

(** [Object.hasOwn(o, key)], for the enumerable properties. *)
Definition hasOwn (h : heap) (o : value) (key : string) : bool :=
  match o with
  | VRef l => has_prop key (props (lookup_obj h l))
  | _ => false
  end.

(** [o[key]]: an own property, or for a record what [Object.prototype]
    holds under [key].  The program reads properties of values that passed
    [isObject] only; for the others (a primitive, an array, a function, ...)
    the own properties are all that is modelled. *)
Definition get (h : heap) (o : value) (key : string) : value :=
  match o with
  | VRef l =>
      let ob := lookup_obj h l in
      if has_prop key (props ob) then get_prop key (props ob)
      else match kind ob with
           | KPlain => Object_prototype_get (VNative ObjectPrototype) key
           | _ => VUndefined
           end
  | VNative ObjectPrototype => Object_prototype_get VNull key
  | _ => VUndefined
  end.

(** [key in o]: an own property, or for a record a property of
    [Object.prototype].  As for [get], the test is modelled in full for the
    values that pass [isObject]. *)
Definition has (h : heap) (o : value) (key : string) : bool :=
  match o with
  | VRef l =>
      let ob := lookup_obj h l in
      has_prop key (props ob)
      || match kind ob with
         | KPlain => Object_prototype_has key
         | _ => false
         end
  | VNative ObjectPrototype => Object_prototype_has key
  | _ => false
  end.

(** The keys a [for (const key in o)] loop visits: the enumerable ones, so
    none of a built-in object. *)
Definition keys (h : heap) (o : value) : list string :=
  match o with
  | VRef l => map fst (props (lookup_obj h l))
  | _ => []
  end.

(** [o[key] = v]: the object at [o]'s location is updated in place. *)
Definition set (h : heap) (o : value) (key : string) (v : value) : heap :=
  match o with
  | VRef l =>
      let ob := lookup_obj h l in
      <[l := Obj (kind ob) (set_prop key v (props ob))]> h
  | _ => h
  end.

Definition typeof (h : heap) (v : value) : string :=
  match v with
  | VUndefined => "undefined"
  | VNull => "object"
  | VBool _ => "boolean"
  | VNum _ => "number"
  | VStr _ => "string"
  | VBigInt _ => "bigint"
  | VSymbol _ => "symbol"
  | VRef l =>
      match kind (lookup_obj h l) with
      | KFunction => "function"
      | _ => "object"
      end
  | VNative ObjectPrototype => "object"
  | VNative (NativeFunction _) => "function"
  end.

Definition is_undefined (v : value) : bool :=
  match v with VUndefined => true | _ => false end.

Definition is_null (v : value) : bool :=
  match v with VNull => true | _ => false end.

(** [v instanceof K] for the built-in constructors, and [Array.isArray]. *)
Definition instanceOf (h : heap) (v : value) (k : okind) : bool :=
  match v with
  | VRef l => okind_eqb (kind (lookup_obj h l)) k
  | _ => false
  end.

Definition isArray (h : heap) (v : value) : bool := instanceOf h v KArray.

(** [ToBoolean] *)
Definition truthy (v : value) : bool :=
  match v with
  | VUndefined | VNull => false
  | VBool b => b
  | VNum x => negb (PrimFloat.is_nan x || PrimFloat.is_zero x)
  | VStr s => negb (String.eqb s "")
  | VBigInt z => negb (Z.eqb z 0)
  | VSymbol _ | VRef _ | VNative _ => true
  end.

(** Outcome of a computation that may throw; [OutOfFuel] is an artefact of
    the embedding (recursion is bounded by a depth budget) and is kept apart
    from the exception. *)
Inductive result (A : Type) : Type :=
| Ok (a : A)
| DataCloneError
| OutOfFuel.
Arguments Ok {A} a.
Arguments DataCloneError {A}.
Arguments OutOfFuel {A}.

#[global] Instance result_bind : MBind result := λ A B f m,
  match m with
  | Ok a => f a
  | DataCloneError => DataCloneError
  | OutOfFuel => OutOfFuel
  end.

Definition is_function (o : obj) : bool := okind_eqb (kind o) KFunction.

(** The structured clone of the properties of one object, left to right,
    threading the store. *)
Fixpoint clone_props (clone : heap → value → result (heap * value))
    (h : heap) (ps : list (string * value))
  : result (heap * list (string * value)) :=
  match ps with
  | [] => Ok (h, [])
  | (k, v) :: ps' =>
      '(h1, v') ← clone h v;
      '(h2, ps'') ← clone_props clone h1 ps';
      Ok (h2, (k, v') :: ps'')
  end.

(** The platform's [structuredClone], on object graphs without cycles: a deep
    copy into fresh locations that keeps kinds, keys and primitive values, and
    throws on functions and symbols.  [Object.prototype] has no enumerable
    property and is copied, by the algorithm of the HTML Standard, as an
    empty record.  (On a graph with sharing the
    built-in also keeps the sharing inside the copy; [defaultFill] never
    writes into a sub-object of a copy, so this cannot be observed through
    it.) *)
Fixpoint structuredClone (fuel : nat) (h : heap) (v : value)
  : result (heap * value) :=
  match v with
  | VSymbol _ => DataCloneError
  | VNative (NativeFunction _) => DataCloneError
  | VNative ObjectPrototype => Ok (h ++ [Obj KPlain []], VRef (length h))
  | VRef l =>
      match fuel with
      | O => OutOfFuel
      | S fuel' =>
          let o := lookup_obj h l in
          if is_function o then DataCloneError
          else
            '(h1, ps) ← clone_props (structuredClone fuel') h (props o);
            Ok (h1 ++ [Obj (kind o) ps], VRef (length h1))
      end
  | _ => Ok (h, v)
  end.

(** Store invariants: no dangling reference. *)
Definition valid (h : heap) (v : value) : bool :=
  match v with
  | VRef l => bool_decide (l < length h)
  | _ => true
  end.

Definition closed (h : heap) : bool :=
  forallb (λ o, forallb (λ kv, valid h kv.2) (props o)) h.

(** [cloneable n h v]: the graph under [v] has depth at most [n] (so it has
    no cycle) and holds neither functions nor symbols, nor a built-in
    object. *)
Fixpoint cloneable (n : nat) (h : heap) (v : value) : bool :=
  match v with
  | VSymbol _ | VNative _ => false
  | VRef l =>
      match n with
      | O => false
      | S n' =>
          match h !! l with
          | Some o =>
              negb (is_function o)
              && forallb (λ kv, cloneable n' h kv.2) (props o)
          | None => false
          end
      end
  | _ => true
  end.

(** Object and array literals of the source text, and their evaluation into
    the store.  (A field named [__proto__], which in a literal sets the
    prototype and makes no property, is not among them.) *)
Inductive literal : Type :=
| LUndefined
| LNull
| LBool (b : bool)
| LNum (x : float)
| LStr (s : string)
| LFun
| LArr (items : list literal)
| LObj (fields : list (string * literal)).

Fixpoint index_keys (i : nat) (n : nat) : list string :=
  match n with
  | O => []
  | S n' => pretty i :: index_keys (S i) n'
  end.

Fixpoint alloc (h : heap) (e : literal) {struct e} : heap * value :=
  match e with
  | LUndefined => (h, VUndefined)
  | LNull => (h, VNull)
  | LBool b => (h, VBool b)
  | LNum x => (h, VNum x)
  | LStr s => (h, VStr s)
  | LFun => (h ++ [Obj KFunction []], VRef (length h))
  | LArr items =>
      let fix go (h : heap) (es : list literal) : heap * list value :=
        match es with
        | [] => (h, [])
        | e' :: es' =>
            let '(h1, v) := alloc h e' in
            let '(h2, vs) := go h1 es' in
            (h2, v :: vs)
        end in
      let '(h1, vs) := go h items in
      (h1 ++ [Obj KArray (zip (index_keys 0 (length vs)) vs)], VRef (length h1))
  | LObj fields =>
      let fix go (h : heap) (fs : list (string * literal))
        : heap * list (string * value) :=
        match fs with
        | [] => (h, [])
        | (k, e') :: fs' =>
            let '(h1, v) := alloc h e' in
            let '(h2, ps) := go h1 fs' in
            (h2, (k, v) :: ps)
        end in
      let '(h1, ps) := go h fields in
      (h1 ++ [Obj KPlain ps], VRef (length h1))
  end.

(** Following a path of keys from a value. *)
Fixpoint get_path (h : heap) (v : value) (path : list string) : value :=
  match path with
  | [] => v
  | key :: path' => get_path h (get h v key) path'
  end.

End JS.

Import JS.

(** ** [src/utils.ts] *)

Module Utils.

(** [isObject]: "Returns true if a variable is an object." *)
Definition isObject (h : heap) (value : value) : bool :=
  String.eqb (typeof h value) "object"
  && negb (is_null value)
  && negb (isArray h value)
  && negb (instanceOf h value KRegExp)
  && negb (instanceOf h value KDate)
  && negb (instanceOf h value KSet)
  && negb (instanceOf h value KMap).

(** The body of the [for (const key in defaultObj)] loop of [defaultFill],
    over the keys still to visit.  [fill] is the recursive call.  Each
    [console.warn] is recorded by the offending user value it prints. *)
Fixpoint fill_keys
    (fill : heap → value → value → result (heap * value * list value))
    (defaultObj userObj newObject : value) (todo : list string) (h : heap)
  : result (heap * list value) :=
  match todo with
  | [] => Ok (h, [])
  | key :: rest =>
      if has h userObj key && negb (is_undefined (get h userObj key)) then
        let defaultVal := get h defaultObj key in
        let userVal := get h userObj key in
        if negb (String.eqb (typeof h defaultVal) (typeof h userVal)) then
          '(h', ws) ← fill_keys fill defaultObj userObj newObject rest h;
          Ok (h', userVal :: ws)
        else if isObject h defaultVal then
          '(h1, filled, ws1) ← fill h defaultVal userVal;
          '(h2, ws2) ← fill_keys fill defaultObj userObj newObject rest
                          (set h1 newObject key filled);
          Ok (h2, ws1 ++ ws2)
        else
          fill_keys fill defaultObj userObj newObject rest
            (set h newObject key userVal)
      else fill_keys fill defaultObj userObj newObject rest h
  end.

(** [defaultFill]: "Fills a given object ([userObj]) with default object
    ([defaultObj]) for the undefined or optional keys, and returns the new
    object."  Returns the final store, the new object and the warnings. *)
Fixpoint defaultFill (fuel : nat) (h : heap) (defaultObj userObj : value)
  : result (heap * value * list value) :=
  '(h1, newObject) ← structuredClone fuel h defaultObj;
  if isObject h1 defaultObj && isObject h1 userObj then
    match fuel with
    | O => OutOfFuel
    | S fuel' =>
        '(h2, ws) ← fill_keys (defaultFill fuel') defaultObj userObj newObject
                       (keys h1 defaultObj) h1;
        Ok (h2, newObject, ws)
    end
  else Ok (h1, newObject, []).

End Utils.

Import Utils.

(** ** [src/Clock.tsx] *)

Module Clock.

(** The default configuration tree [OPTIONS], as written in the source. *)
Definition tick_lit (height width : float) (background : string) (radius : float)
  : literal :=
  LObj [("show", LBool true); ("height", LNum height); ("width", LNum width);
        ("background", LStr background); ("radius", LNum radius)].

Definition count_lit (size : float) (color background : string) (gap : float)
  : literal :=
  LObj [("show", LBool true); ("size", LNum size); ("color", LStr color);
        ("background", LStr background); ("gap", LNum gap)].

Definition subpart_lit (background : string) (radius width height : float)
  : literal :=
  LObj [("show", LBool true); ("background", LStr background);
        ("radius", LNum radius); ("width", LNum width); ("height", LNum height)].

Definition front_lit (background : string) (radius width height : float)
    (alignment : string) : literal :=
  LObj [("show", LBool true); ("background", LStr background);
        ("radius", LNum radius); ("width", LNum width); ("height", LNum height);
        ("alignment", LStr alignment)].

Definition hand_lit (front frontBase back : literal) : literal :=
  LObj [("show", LBool true); ("front", front); ("frontBase", frontBase);
        ("back", back)].

Definition OPTIONS_lit : literal :=
  LObj [
    ("size", LNum 400);
    ("face", LObj [
      ("background", LStr "white");
      ("show", LBool true);
      ("padding", LNum 0);
      ("ticks", LObj [
        ("show", LBool true);
        ("regular", tick_lit 20 4 "rgb(200 200 200)" 2);
        ("secondary", tick_lit 28 4 "black" 2);
        ("primary", tick_lit 36 8 "rgb(0 122 255)" 3)]);
      ("counts", LObj [
        ("show", LBool true);
        ("secondary", count_lit 20 "rgb(100 100 100)" "rgb(0 122 255 / 0)" 5);
        ("primary", count_lit 25 "black" "rgb(0 122 255 / 0.08)" 5)])]);
    ("interface", LObj [
      ("show", LBool true);
      ("dynamic", LBool true);
      ("transition", LNum 300);
      ("pivot", LObj [("show", LBool true); ("size", LNum 20);
                      ("background", LStr "rgb(0 0 0)")]);
      ("hourHand", hand_lit (front_lit "black" 4 12 80 "CENTER")
                            (subpart_lit "grey" 2 4 120)
                            (subpart_lit "grey" 2 4 24));
      ("minuteHand", hand_lit (front_lit "black" 4 8 120 "TICK")
                              (subpart_lit "grey" 2 4 150)
                              (subpart_lit "grey" 2 4 30));
      ("secondHand", hand_lit (front_lit "red" 4 6 120 "CENTER")
                              (subpart_lit "orange" 2 4 150)
                              (subpart_lit "grey" 2 4 30))])].

(** The store once the module is loaded: it holds [OPTIONS] and nothing
    else. *)
Definition OPTIONS_heap : heap := (alloc [] OPTIONS_lit).1.
Definition OPTIONS : value := (alloc [] OPTIONS_lit).2.

(** [Math.max] of two numbers. *)
Definition Math_max (a b : float) : float :=
  if PrimFloat.is_nan a || PrimFloat.is_nan b then PrimFloat.nan
  else if PrimFloat.ltb a b then b
  else if PrimFloat.ltb b a then a
  else if PrimFloat.get_sign a then b else a.

(** *** [ClockHand] *)

(** One sub-part of a merged hand configuration, reduced to what the
    geometry reads. *)
Record HandSubPart : Type := {
  width : float;
  height : float;
  alignment : string
}.

Record ClockHandOptions : Type := {
  front : HandSubPart;
  frontBase : HandSubPart;
  back : HandSubPart
}.

Definition frontAlignmentTranslation
    (alignment : string) (frontHeight frontBaseHeight pivotSize : float)
  : float :=
  if String.eqb alignment "PIVOT" then (frontHeight - frontBaseHeight)%float
  else if String.eqb alignment "CENTER" then
    ((frontHeight + pivotSize / 2 - frontBaseHeight) / 2)%float
  else 0%float.

Definition resolvedHandWidth (frontBaseWidth backWidth : float) : float :=
  Math_max frontBaseWidth backWidth.

(** The numeric custom properties [ClockHand] hands to the style sheet. *)
Record HandStyle : Type := {
  hand_height : float;
  hand_width : float;
  hand_back_height : float;
  hand_rotate : float;
  hand_translate : float
}.

Definition ClockHand (clockHand : ClockHandOptions) (degrees pivotSize : float)
  : HandStyle :=
  let frontBaseHeight := height (frontBase clockHand) in
  let frontBaseWidth := width (frontBase clockHand) in
  let frontHeight := height (front clockHand) in
  let alignment := alignment (front clockHand) in
  let backHeight := height (back clockHand) in
  let backWidth := width (back clockHand) in
  {| hand_height := (backHeight + frontBaseHeight)%float;
     hand_width := resolvedHandWidth frontBaseWidth backWidth;
     hand_back_height := backHeight;
     hand_rotate := degrees;
     hand_translate :=
       (- frontAlignmentTranslation alignment frontHeight frontBaseHeight
            pivotSize)%float |}.

(** *** [ClockInterface] *)

(** What the component reads of a [Date]: whole numbers of hours, minutes and
    seconds. *)
Record Date : Type := {
  getHours : Z;
  getMinutes : Z;
  getSeconds : Z
}.

(** A whole number as a binary64 value. *)
Definition num (z : Z) : float :=
  if (z <? 0)%Z then (- PrimFloat.of_uint63 (Uint63.of_Z (- z)))%float
  else PrimFloat.of_uint63 (Uint63.of_Z z).

Record Rotations : Type := {
  hour : float;
  minute : float;
  second : float
}.

Definition initialHourDeg (time : Date) : float :=
  (num (Z.rem (getHours time) 12) / 12 * 360
   + num (getMinutes time) / 60 * 30)%float.

Definition initialMinuteDeg (time : Date) : float :=
  (num (getMinutes time) / 60 * 360 + num (getSeconds time) / 60 * 6)%float.

Definition initialSecondDeg (time : Date) : float :=
  (num (getSeconds time) / 60 * 360)%float.

(** The state of one mounted [ClockInterface]: the [degRotations] state
    variable and whether the interval of the last effect is still armed. *)
Record Interface : Type := {
  degRotations : Rotations;
  interval : bool
}.

(** [useState({hour: 0, minute: 0, second: 0})] *)
Definition initialState : Interface :=
  {| degRotations := {| hour := 0; minute := 0; second := 0 |};
     interval := false |}.

(** The body of the effect, run with the current [time] and [dynamic]. *)
Definition effect (time : Date) (dynamic : bool) (s : Interface) : Interface :=
  if negb dynamic then s
  else {| degRotations := {| hour := initialHourDeg time;
                             minute := initialMinuteDeg time;
                             second := initialSecondDeg time |};
          interval := true |}.

(** The clean-up the effect returned, if any: [clearInterval(interval)]. *)
Definition cleanup (s : Interface) : Interface :=
  {| degRotations := degRotations s; interval := false |}.

(** The callback of [setInterval]. *)
Definition tick (prev : Rotations) : Rotations :=
  {| hour := (hour prev + 1 / 120)%float;
     minute := (minute prev + 0.1)%float;
     second := (second prev + 6)%float |}.

(** What can happen to a mounted interface: a render in which [time] or
    [dynamic] changed (the effect's dependencies), the timer firing, and
    unmounting. *)
Inductive event : Type :=
| Update (time : Date) (dynamic : bool)
| TimerFires
| Unmount.

Definition mount (time : Date) (dynamic : bool) : Interface :=
  effect time dynamic initialState.

Definition step (s : Interface) (e : event) : Interface :=
  match e with
  | Update time dynamic => effect time dynamic (cleanup s)
  | TimerFires =>
      if interval s then
        {| degRotations := tick (degRotations s); interval := true |}
      else s
  | Unmount => cleanup s
  end.

Definition run (s : Interface) (es : list event) : Interface :=
  fold_left step es s.

(** Events that leave the [dynamic] flag off. *)
Definition keeps_static (e : event) : bool :=
  match e with
  | Update _ dynamic => negb dynamic
  | TimerFires | Unmount => true
  end.

(** *** [Clock] *)

(** [Clock]: normalise [options ?? {}] against [OPTIONS], then mount the
    interface with the [dynamic] flag of the normalised options.  Returns the
    store, the normalised options, the warnings, and the interface. *)
Definition Clock (fuel : nat) (h : heap) (options : value) (time : Date)
  : result (heap * value * list value * Interface) :=
  let '(h0, options) :=
    if is_undefined options || is_null options then alloc h (LObj [])
    else (h, options) in
  '(h', normalizedOptions, ws) ← defaultFill fuel h0 OPTIONS options;
  let interfaceOptions := get h' normalizedOptions "interface" in
  let dynamic := truthy (get h' interfaceOptions "dynamic") in
  Ok (h', normalizedOptions, ws, mount time dynamic).

End Clock.

Import Clock.

(** ** Vocabulary of the statements *)

(** [h'] extends [h]: every object of [h] is still there, unchanged. *)
Definition extends (h h' : heap) : Prop :=
  ∀ l o, h !! l = Some o → h' !! l = Some o.

(** Locations allocated after the store [h]. *)
Definition fresh_from (h : heap) : loc → Prop := λ l, length h ≤ l.

(** [reach h v l]: the object at [l] is [v] or a sub-object of [v]. *)
Inductive reach (h : heap) : value → loc → Prop :=
| reach_here l : reach h (VRef l) l
| reach_step l key l' :
    key ∈ keys h (VRef l) →
    reach h (get h (VRef l) key) l' →
    reach h (VRef l) l'.

(** [Cloned F n h d h' r]: [r] (in [h']) is a deep copy of [d] (in [h]) whose
    objects all live at locations in [F]; [d] is a primitive or an object of
    the store. *)
Fixpoint Cloned (F : loc → Prop) (n : nat) (h : heap) (d : value)
    (h' : heap) (r : value) : Prop :=
  match d with
  | VNative _ => False
  | VRef ld =>
      match n with
      | O => False
      | S n' =>
          ∃ lr, r = VRef lr ∧ F lr ∧ lr < length h'
            ∧ kind (lookup_obj h' lr) = kind (lookup_obj h ld)
            ∧ keys h' r = keys h d
            ∧ ∀ key, key ∈ keys h d →
                Cloned F n' h (get h d key) h' (get h' r key)
      end
  | _ => r = d
  end.

(** Does the user object override [key] with a value of the default's
    [typeof]? *)
Definition overrides (h : heap) (d u : value) (key : string) : bool :=
  has h u key && negb (is_undefined (get h u key))
  && String.eqb (typeof h (get h d key)) (typeof h (get h u key)).

(** [Filled F n h d u h' r]: [r] (in [h']) is the merge of the user value [u]
    into the default [d] (both in [h]): a new record with the default's keys;
    under each key the user's value where it overrides the default (merged
    recursively where the default is a record, taken as it is otherwise) and
    a copy of the default's value elsewhere.  New objects live in [F]. *)
Fixpoint Filled (F : loc → Prop) (n : nat) (h : heap) (d u : value)
    (h' : heap) (r : value) : Prop :=
  if isObject h d && isObject h u then
    match n with
    | O => False
    | S n' =>
        ∃ lr, r = VRef lr ∧ F lr ∧ lr < length h'
          ∧ isObject h' r = true
          ∧ keys h' r = keys h d
          ∧ ∀ key, key ∈ keys h d →
              if overrides h d u key then
                if isObject h (get h d key)
                then Filled F n' h (get h d key) (get h u key) h' (get h' r key)
                else get h' r key = get h u key
              else Cloned F n' h (get h d key) h' (get h' r key)
    end
  else Cloned F n h d h' r.

(** The warnings a merge prints: the user values whose [typeof] differs from
    the default's, in key order. *)
Fixpoint warnings (n : nat) (h : heap) (d u : value) : list value :=
  if isObject h d && isObject h u then
    match n with
    | O => []
    | S n' =>
        flat_map
          (λ key,
             if has h u key && negb (is_undefined (get h u key)) then
               if negb (String.eqb (typeof h (get h d key))
                          (typeof h (get h u key)))
               then [get h u key]
               else if isObject h (get h d key)
                    then warnings n' h (get h d key) (get h u key)
                    else []
             else [])
          (keys h d)
    end
  else [].

(** Same shape: the same [typeof], and for records the same keys with values
    of the same shape. *)
Fixpoint same_shape (n : nat) (h : heap) (d : value) (h' : heap) (r : value)
  : Prop :=
  typeof h d = typeof h' r
  ∧ (isObject h d = true →
       match n with
       | O => False
       | S n' =>
           isObject h' r = true
           ∧ keys h' r = keys h d
           ∧ ∀ key, key ∈ keys h d →
               same_shape n' h (get h d key) h' (get h' r key)
       end).

(** Deep equality of two values of one store: the same value, or two objects
    of the same kind with the same keys and deeply equal values. *)
Fixpoint deep_eq (n : nat) (h : heap) (a b : value) : Prop :=
  a = b
  ∨ match n, a, b with
    | S n', VRef la, VRef lb =>
        la < length h ∧ lb < length h
        ∧ kind (lookup_obj h la) = kind (lookup_obj h lb)
        ∧ keys h a = keys h b
        ∧ ∀ key, key ∈ keys h a → deep_eq n' h (get h a key) (get h b key)
    | _, _, _ => False
    end.


(** The loop of [defaultFill], seen from the store [h] and the values [d] and
    [u] the call started with, the new object being at [nl]. *)

(** Where the values of the new object live. *)
Definition inner (h : heap) (nl : loc) : loc → Prop :=
  λ l, length h ≤ l ∧ l ≠ nl.

(** What a visited key holds in the store [hc]. *)
Definition key_done (n : nat) (h : heap) (d u : value) (nl : loc)
    (hc : heap) (key : string) : Prop :=
  if overrides h d u key then
    if isObject h (get h d key)
    then Filled (inner h nl) n h (get h d key) (get h u key) hc
           (get hc (VRef nl) key)
    else get hc (VRef nl) key = get h u key
  else Cloned (inner h nl) n h (get h d key) hc (get hc (VRef nl) key).

(** What a key that was not visited yet holds. *)
Definition key_todo (n : nat) (h : heap) (d : value) (nl : loc)
    (hc : heap) (key : string) : Prop :=
  Cloned (inner h nl) n h (get h d key) hc (get hc (VRef nl) key).

(** The warnings printed when [key] is visited. *)
Definition key_warnings (n : nat) (h : heap) (d u : value) (key : string)
  : list value :=
  if has h u key && negb (is_undefined (get h u key)) then
    if negb (String.eqb (typeof h (get h d key)) (typeof h (get h u key)))
    then [get h u key]
    else if isObject h (get h d key)
         then warnings n h (get h d key) (get h u key)
         else []
  else [].

(** The loop invariant, after the keys [visited]. *)
Definition loop_inv (n : nat) (h : heap) (d u : value) (nl : loc)
    (hc : heap) (visited : list string) : Prop :=
  extends h hc ∧ closed hc = true ∧ nl < length hc
  ∧ isObject hc (VRef nl) = true
  ∧ keys hc (VRef nl) = keys h d
  ∧ ∀ key, key ∈ keys h d →
      (key ∈ visited → key_done n h d u nl hc key)
      ∧ (key ∉ visited → key_todo n h d nl hc key).

(** [mismatch_at h d u path]: along [path] the default and the user's value
    are records and the user's value is present, and under the last key the
    user's value is defined with a [typeof] other than the default's. *)
Fixpoint mismatch_at (h : heap) (d u : value) (path : list string) : bool :=
  match path with
  | [] => false
  | key :: rest =>
      isObject h d && isObject h u && hasOwn h d key && has h u key
      && negb (is_undefined (get h u key))
      && match rest with
         | [] => negb (String.eqb (typeof h (get h d key))
                         (typeof h (get h u key)))
         | _ => mismatch_at h (get h d key) (get h u key) rest
         end
  end.



(** ** Inputs used in the examples *)

Module Examples.

(** A caller of [Clock] that passes [{face: {padding: "10"}}]. *)
Definition padding_user : heap * value :=
  alloc OPTIONS_heap (LObj [("face", LObj [("padding", LStr "10")])]).

(** A caller that asks for the documented [showDiscreteTime] option. *)
Definition discrete_user : heap * value :=
  alloc OPTIONS_heap
    (LObj [("interface", LObj [("showDiscreteTime", LBool true)])]).

(** A caller that repaints the front of the hour hand. *)
Definition blue_user : heap * value :=
  alloc OPTIONS_heap
    (LObj [("interface",
            LObj [("hourHand",
                   LObj [("front", LObj [("background", LStr "blue")])])])]).

(** A caller that turns [dynamic] off. *)
Definition static_user : heap * value :=
  alloc OPTIONS_heap (LObj [("interface", LObj [("dynamic", LBool false)])]).



Definition at_03_15_30 : Date :=
  {| getHours := 3; getMinutes := 15; getSeconds := 30 |}.

Definition at_05_00_00 : Date :=
  {| getHours := 5; getMinutes := 0; getSeconds := 0 |}.

Definition at_05_30_30 : Date :=
  {| getHours := 5; getMinutes := 30; getSeconds := 30 |}.

Definition at_00_00_59 : Date :=
  {| getHours := 0; getMinutes := 0; getSeconds := 59 |}.

Definition at_00_01_00 : Date :=
  {| getHours := 0; getMinutes := 1; getSeconds := 0 |}.

(** The hour hand of [OPTIONS], as [ClockHand] receives it. *)
Definition hourHand : ClockHandOptions :=
  {| front := {| width := 12; height := 80; alignment := "CENTER" |};
     frontBase := {| width := 4; height := 120; alignment := "" |};
     back := {| width := 4; height := 24; alignment := "" |} |}.

End Examples.

(** ** Vocabulary of the further properties *)

(** [field_at final h d u path]: along [path] the default and the user's
    value are records and the user's value is present, and for the last key,
    which the default has, the test [final] holds. *)
Fixpoint field_at (final : heap → value → value → string → bool)
    (h : heap) (d u : value) (path : list string) : bool :=
  match path with
  | [] => false
  | key :: rest =>
      isObject h d && isObject h u && hasOwn h d key
      && match rest with
         | [] => final h d u key
         | _ =>
             has h u key && negb (is_undefined (get h u key))
             && field_at final h (get h d key) (get h u key) rest
         end
  end.

(** The user's record has no value for [key]: the key is missing or holds
    [undefined]. *)
Definition absent (h : heap) (d u : value) (key : string) : bool :=
  negb (has h u key && negb (is_undefined (get h u key))).

(** The user's record overrides a default that is not a record. *)
Definition scalar_override (h : heap) (d u : value) (key : string) : bool :=
  overrides h d u key && negb (isObject h (get h d key)).

(** Events after which no tick source is left: [dynamic] is turned off, or
    the interface is unmounted. *)
Definition stops (e : event) : bool :=
  match e with
  | Update _ dynamic => negb dynamic
  | Unmount => true
  | TimerFires => false
  end.

(** An angle within one turn: [0 <= x < 360]. *)
Definition within_a_turn (x : float) : bool :=
  PrimFloat.leb 0 x && PrimFloat.ltb x 360.

(** The whole numbers [0, ..., n - 1]. *)
Definition upto (n : nat) : list Z := map Z.of_nat (seq 0 n).

(** ** [PerimeterPlacer], [Tick] and [Count] of [src/Clock.tsx] *)

Module Perimeter.

Inductive TickLevel : Type := regular | secondary | primary.

(** [CountLevel = Exclude<TickLevel, "regular">] *)
Inductive CountLevel : Type := Secondary | Primary.

(** The merged options of the face, as the components read them. *)
Record TickOptions : Type := {
  tick_show : bool;
  tick_height : float;
  tick_width : float;
  tick_background : string;
  tick_radius : float
}.

Record TicksOptions : Type := {
  ticks_show : bool;
  ticks_regular : TickOptions;
  ticks_secondary : TickOptions;
  ticks_primary : TickOptions
}.

Record CountOptions : Type := {
  count_show : bool;
  count_size : float;
  count_color : string;
  count_background : string;
  count_gap : float
}.

Record CountsOptions : Type := {
  counts_show : bool;
  counts_secondary : CountOptions;
  counts_primary : CountOptions
}.

(** [ticks[level]] and [counts[level]] *)
Definition ticks_at (ticks : TicksOptions) (level : TickLevel) : TickOptions :=
  match level with
  | regular => ticks_regular ticks
  | secondary => ticks_secondary ticks
  | primary => ticks_primary ticks
  end.

Definition counts_at (counts : CountsOptions) (level : CountLevel)
  : CountOptions :=
  match level with
  | Secondary => counts_secondary counts
  | Primary => counts_primary counts
  end.

(** What [Tick] and [Count] hand to the style sheet. *)
Record TickView : Type := {
  Tick_radius : float;
  Tick_background : string
}.

Record CountView : Type := {
  Count_number : float;
  Count_color : string;
  Count_background : string;
  Count_size : float;
  Count_gap : float
}.

Definition Tick (radius : float) (background : string) : TickView :=
  {| Tick_radius := radius; Tick_background := background |}.

Definition Count (number : float) (counts : CountsOptions) (level : CountLevel)
  : CountView :=
  let countByLevel := counts_at counts level in
  {| Count_number := number;
     Count_color := count_color countByLevel;
     Count_background := count_background countByLevel;
     Count_size := count_size countByLevel;
     Count_gap := count_gap countByLevel |}.

(** One element of the perimeter: the custom properties of its [div], its
    [Tick] and, where there is one, its [Count]. *)
Record Placed : Type := {
  tick_index : nat;
  center_to_tick_hypotenuse : float;
  degree : float;
  tick_height_px : float;
  tick_width_px : float;
  tick_view : TickView;
  count_view : option CountView
}.

(** [Set.prototype.has] on numbers: the SameValueZero comparison. *)
Definition same_value_zero (x y : float) : bool :=
  PrimFloat.eqb x y || (PrimFloat.is_nan x && PrimFloat.is_nan y).

Definition Set_has (s : list float) (x : float) : bool :=
  existsb (same_value_zero x) s.

Definition totalTicks : nat := 60.

Definition degPerTick : float := (360 / num (Z.of_nat totalTicks))%float.

Definition primaries : list float := [0; 3; 6; 9]%float.

(** [primaries.has(i / 5) ? 2 : i % 5 === 0 ? 1 : 0] *)
Definition levelIndex (i : nat) : nat :=
  if Set_has primaries (num (Z.of_nat i) / 5)%float then 2
  else if (Z.rem (Z.of_nat i) 5 =? 0)%Z then 1
  else 0.

(** [PerimeterPlacer]: one entry per tick index, [None] where the component
    returns [null].  The arrays [tickByLevelIndex] and [cthByLevelIndex] are
    lists; they are read at [levelIndex], which is 0, 1 or 2. *)
Definition PerimeterPlacer (ticks : TicksOptions) (apparentClockRadius : float)
    (counts : CountsOptions) : list (option Placed) :=
  let levelByIndex := [regular; secondary; primary] in
  let tickByLevelIndex := map (ticks_at ticks) levelByIndex in
  let cthByLevelIndex :=
    map (λ tick, (apparentClockRadius - tick_height tick / 2)%float)
      tickByLevelIndex in
  let showRegularTicks := tick_show (nth 0 tickByLevelIndex (ticks_regular ticks)) in
  map
    (λ i,
       let deg := (degPerTick * num (Z.of_nat i))%float in
       let levelIndex := levelIndex i in
       let cth := nth levelIndex cthByLevelIndex PrimFloat.nan in
       if Nat.eqb levelIndex 0 && negb showRegularTicks then None
       else
         let tick := nth levelIndex tickByLevelIndex (ticks_regular ticks) in
         Some
           {| tick_index := i;
              center_to_tick_hypotenuse := cth;
              degree := deg;
              tick_height_px := if tick_show tick then tick_height tick else 0;
              tick_width_px := if tick_show tick then tick_width tick else 0;
              tick_view := Tick (tick_radius tick) (tick_background tick);
              count_view :=
                if counts_show counts && negb (Nat.eqb levelIndex 0) then
                  Some (Count ((if Nat.eqb i 0 then 60 else num (Z.of_nat i)) / 5)
                          counts
                          (if Nat.eqb levelIndex 1 then Secondary else Primary))
                else None |})
    (seq 0 totalTicks).

(** The face of [Clock]: the perimeter is rendered when [ticks.show] is on,
    with [apparentClockRadius = size / 2 - padding]. *)
Definition ClockFace (size padding : float) (ticks : TicksOptions)
    (counts : CountsOptions) : list (option Placed) :=
  if ticks_show ticks
  then PerimeterPlacer ticks (size / 2 - padding)%float counts
  else [].

(** The level of the tick at index [i], by whole-number arithmetic: the
    quarters are primary, the other multiples of 5 secondary. *)
Definition level_of (i : nat) : TickLevel :=
  if Nat.eqb (i mod 15) 0 then primary
  else if Nat.eqb (i mod 5) 0 then secondary
  else regular.

(** The numbers shown on the face, with the index of their tick. *)
Definition labels (placed : list (option Placed)) : list (nat * CountView) :=
  omap (λ o, p ← o; c ← count_view p; Some (tick_index p, c)) placed.

End Perimeter.

(** ** Faces used in the examples *)

Module Faces.
Import Perimeter.

(** The ticks and counts of [OPTIONS]. *)
Definition default_ticks : TicksOptions :=
  {| ticks_show := true;
     ticks_regular :=
       {| tick_show := true; tick_height := 20; tick_width := 4;
          tick_background := "rgb(200 200 200)"; tick_radius := 2 |};
     ticks_secondary :=
       {| tick_show := true; tick_height := 28; tick_width := 4;
          tick_background := "black"; tick_radius := 2 |};
     ticks_primary :=
       {| tick_show := true; tick_height := 36; tick_width := 8;
          tick_background := "rgb(0 122 255)"; tick_radius := 3 |} |}.

Definition default_counts : CountsOptions :=
  {| counts_show := true;
     counts_secondary :=
       {| count_show := true; count_size := 20;
          count_color := "rgb(100 100 100)";
          count_background := "rgb(0 122 255 / 0)"; count_gap := 5 |};
     counts_primary :=
       {| count_show := true; count_size := 25; count_color := "black";
          count_background := "rgb(0 122 255 / 0.08)"; count_gap := 5 |} |}.

(** The same ticks with every level switched off. *)
Definition hidden_levels : TicksOptions :=
  {| ticks_show := true;
     ticks_regular :=
       {| tick_show := false; tick_height := 20; tick_width := 4;
          tick_background := "rgb(200 200 200)"; tick_radius := 2 |};
     ticks_secondary :=
       {| tick_show := false; tick_height := 28; tick_width := 4;
          tick_background := "black"; tick_radius := 2 |};
     ticks_primary :=
       {| tick_show := false; tick_height := 36; tick_width := 8;
          tick_background := "rgb(0 122 255)"; tick_radius := 3 |} |}.

(** A hand whose back is wider than its front base. *)
Definition wide_back : ClockHandOptions :=
  {| front := {| width := 12; height := 80; alignment := "CENTER" |};
     frontBase := {| width := 4; height := 120; alignment := "" |};
     back := {| width := 6; height := 24; alignment := "" |} |}.

End Faces.

(** ** Records whose keys are names of [Object.prototype] *)

Module Prototypes.

(** A default with the keys [constructor] and [toString], and a user's
    record without any property of its own. *)
Definition named_default : heap * value :=
  alloc [] (LObj [("constructor", LStr "x"); ("toString", LNum 1)]).

Definition empty_user : heap * value :=
  alloc named_default.1 (LObj []).

End Prototypes.

(** * Proofs *)

(** ** Property lists *)

Section PropertyLists.
Implicit Types (ps : list (string * value)) (key : string) (v : value).

Lemma get_prop_set_eq key v ps : get_prop key (set_prop key v ps) = v.
Proof.
  induction ps as [|[k w] ps IH]; simpl.
  - by rewrite String.eqb_refl.
  - destruct (String.eqb k key) eqn:E; simpl; rewrite E; done.
Qed.

Lemma get_prop_set_ne key key' v ps :
  key ≠ key' → get_prop key' (set_prop key v ps) = get_prop key' ps.
Proof.
  intros Hne. induction ps as [|[k w] ps IH]; simpl.
  - apply String.eqb_neq in Hne. by rewrite Hne.
  - destruct (String.eqb k key) eqn:E; simpl.
    + apply String.eqb_eq in E as ->.
      apply String.eqb_neq in Hne. by rewrite Hne.
    + by rewrite IH.
Qed.

Lemma keys_set_prop key v ps :
  key ∈ map fst ps → map fst (set_prop key v ps) = map fst ps.
Proof.
  induction ps as [|[k w] ps IH]; simpl; intros Hin.
  - by apply elem_of_nil in Hin.
  - destruct (String.eqb k key) eqn:E; simpl; [done|].
    f_equal. apply IH. apply elem_of_cons in Hin as [->|Hin]; [|done].
    by rewrite String.eqb_refl in E.
Qed.

Lemma get_prop_elem key ps :
  get_prop key ps = VUndefined ∨ (∃ k, (k, get_prop key ps) ∈ ps).
Proof.
  induction ps as [|[k w] ps IH]; simpl; [by left|].
  destruct (String.eqb k key).
  - right. exists k. apply elem_of_cons. by left.
  - destruct IH as [IH|[k' IH]]; [by left|].
    right. exists k'. apply elem_of_cons. by right.
Qed.

Lemma set_prop_elem key v ps kv :
  kv ∈ set_prop key v ps → kv ∈ ps ∨ kv.2 = v.
Proof.
  induction ps as [|[k w] ps IH]; simpl; intros Hin.
  - apply list_elem_of_singleton in Hin as ->. by right.
  - destruct (String.eqb k key).
    + apply elem_of_cons in Hin as [->|Hin]; [by right|].
      left. apply elem_of_cons. by right.
    + apply elem_of_cons in Hin as [->|Hin].
      * left. apply elem_of_cons. by left.
      * destruct (IH Hin) as [?|?]; [left|by right].
        apply elem_of_cons. by right.
Qed.

Lemma has_prop_keys key ps : has_prop key ps = true ↔ key ∈ map fst ps.
Proof.
  induction ps as [|[k w] ps IH]; simpl.
  - split; [done|]. intros H. by apply elem_of_nil in H.
  - rewrite orb_true_iff, IH, elem_of_cons, String.eqb_eq. split; intros [?|?]; auto.
Qed.

Lemma has_prop_set_prop key key' v ps :
  has_prop key' (set_prop key v ps) = String.eqb key key' || has_prop key' ps.
Proof.
  induction ps as [|[k w] ps IH]; simpl; [done|].
  destruct (String.eqb k key) eqn:E; simpl.
  - apply String.eqb_eq in E as ->. by destruct (String.eqb key key').
  - rewrite IH. by destruct (String.eqb k key'), (String.eqb key key').
Qed.

Lemma has_prop_ext key ps ps' :
  map fst ps = map fst ps' → has_prop key ps = has_prop key ps'.
Proof.
  intros Heq. apply eq_true_iff_eq. by rewrite !has_prop_keys, Heq.
Qed.
End PropertyLists.

(** ** Stores: dereferencing, extension, closedness *)

Section Stores.
Implicit Types (h : heap) (l : loc) (v : value) (o : obj).

Lemma lookup_obj_Some h l o : h !! l = Some o → lookup_obj h l = o.
Proof. unfold lookup_obj. by intros ->. Qed.

Lemma lookup_obj_lt h l : l < length h → h !! l = Some (lookup_obj h l).
Proof.
  intros Hl. apply lookup_lt_is_Some_2 in Hl as [o Ho].
  by rewrite (lookup_obj_Some _ _ _ Ho).
Qed.

Lemma extends_refl h : extends h h.
Proof. by intros l o. Qed.

Lemma extends_trans h1 h2 h3 : extends h1 h2 → extends h2 h3 → extends h1 h3.
Proof. intros H12 H23 l o Hl. eauto. Qed.

Lemma extends_app h new : extends h (h ++ new).
Proof. intros l o Hl. rewrite lookup_app_l; [done|]. by eapply lookup_lt_Some. Qed.

Lemma extends_length h h' : extends h h' → length h ≤ length h'.
Proof.
  intros Hext. destruct (decide (length h = 0)) as [->|Hne]; [lia|].
  assert (Hlt : length h - 1 < length h) by lia.
  apply lookup_lt_is_Some_2 in Hlt as [o Ho].
  apply Hext, lookup_lt_Some in Ho. lia.
Qed.

Lemma extends_lookup_obj h h' l :
  extends h h' → l < length h → lookup_obj h' l = lookup_obj h l.
Proof.
  intros Hext Hl. apply lookup_obj_Some, Hext. by apply lookup_obj_lt.
Qed.

Lemma valid_ref h l : valid h (VRef l) = true ↔ l < length h.
Proof. simpl. by rewrite bool_decide_eq_true. Qed.

Lemma valid_mono h h' v :
  length h ≤ length h' → valid h v = true → valid h' v = true.
Proof.
  destruct v; simpl; try done.
  rewrite !bool_decide_eq_true. lia.
Qed.

Lemma closed_spec h :
  closed h = true ↔
  ∀ l o, h !! l = Some o → ∀ kv, kv ∈ props o → valid h kv.2 = true.
Proof.
  unfold closed. rewrite forallb_forall. split.
  - intros Hc l o Hl kv Hkv.
    assert (Ho : In o h) by (apply list_elem_of_In, list_elem_of_lookup; eauto).
    specialize (Hc o Ho). rewrite forallb_forall in Hc.
    by apply Hc, list_elem_of_In.
  - intros Hc o Ho. apply forallb_forall. intros kv Hkv.
    apply list_elem_of_In, list_elem_of_lookup in Ho as [l Hl].
    eapply Hc; [done|]. by apply list_elem_of_In.
Qed.

Lemma valid_get_prop h ps key :
  (∀ kv, kv ∈ ps → valid h kv.2 = true) → valid h (get_prop key ps) = true.
Proof.
  intros Hps. destruct (get_prop_elem key ps) as [->|[k Hk]]; [done|].
  apply (Hps _ Hk).
Qed.

Lemma valid_Object_prototype_get h proto key :
  valid h proto = true → valid h (Object_prototype_get proto key) = true.
Proof.
  intros Hp. unfold Object_prototype_get.
  destruct (String.eqb key "__proto__"); [done|].
  destruct (String.eqb key "constructor"); [done|].
  by destruct (Object_prototype_has key).
Qed.

(** An own key is read from the property list. *)
Lemma get_own h l key :
  key ∈ keys h (VRef l) →
  get h (VRef l) key = get_prop key (props (lookup_obj h l)).
Proof.
  intros Hkey. apply has_prop_keys in Hkey. simpl. by rewrite Hkey.
Qed.

Lemma hasOwn_keys h v key : hasOwn h v key = true ↔ key ∈ keys h v.
Proof.
  destruct v; simpl; try (split; [done|by intros ?%elem_of_nil]).
  apply has_prop_keys.
Qed.

Lemma hasOwn_has h v key : hasOwn h v key = true → has h v key = true.
Proof. destruct v; simpl; try done. by intros ->. Qed.

Lemma valid_get h v key :
  closed h = true → valid h (get h v key) = true.
Proof.
  intros Hc. destruct v as [| | | | | | |l|[|]]; simpl; try done;
    [|by apply valid_Object_prototype_get].
  destruct (has_prop key (props (lookup_obj h l))).
  - unfold lookup_obj. destruct (h !! l) as [o|] eqn:Hl; [|done].
    apply valid_get_prop. rewrite closed_spec in Hc. eauto.
  - destruct (kind (lookup_obj h l)); try done.
    by apply valid_Object_prototype_get.
Qed.

(** What the program observes of a valid value does not change when the
    store is extended. *)
Section Views.
Context (h h' : heap) (Hext : extends h h').

Lemma view_typeof v : valid h v = true → typeof h' v = typeof h v.
Proof.
  destruct v; simpl; try done. rewrite bool_decide_eq_true. intros Hl.
  by rewrite (extends_lookup_obj h h').
Qed.

Lemma view_instanceOf v k :
  valid h v = true → instanceOf h' v k = instanceOf h v k.
Proof.
  destruct v; simpl; try done. rewrite bool_decide_eq_true. intros Hl.
  by rewrite (extends_lookup_obj h h').
Qed.

Lemma view_isObject v : valid h v = true → isObject h' v = isObject h v.
Proof.
  intros Hv. unfold isObject, isArray.
  by rewrite view_typeof, !view_instanceOf.
Qed.

Lemma view_get v key : valid h v = true → get h' v key = get h v key.
Proof.
  destruct v; simpl; try done. rewrite bool_decide_eq_true. intros Hl.
  by rewrite (extends_lookup_obj h h').
Qed.

Lemma view_has v key : valid h v = true → has h' v key = has h v key.
Proof.
  destruct v; simpl; try done. rewrite bool_decide_eq_true. intros Hl.
  by rewrite (extends_lookup_obj h h').
Qed.

Lemma view_keys v : valid h v = true → keys h' v = keys h v.
Proof.
  destruct v; simpl; try done. rewrite bool_decide_eq_true. intros Hl.
  by rewrite (extends_lookup_obj h h').
Qed.

Lemma view_valid v : valid h v = true → valid h' v = true.
Proof. apply valid_mono, extends_length, Hext. Qed.
End Views.

(** What passes [isObject]: a record of the store, or [Object.prototype]. *)
Lemma isObject_cases h v :
  isObject h v = true →
  v = VNative ObjectPrototype
  ∨ ∃ l, v = VRef l ∧ kind (lookup_obj h l) = KPlain.
Proof.
  unfold isObject, isArray. destruct v as [| | | | | | |l|[|]]; simpl; try done;
    [|by left].
  destruct (kind (lookup_obj h l)) eqn:E; simpl; try done. eauto.
Qed.

Lemma isObject_ref h v :
  isObject h v = true → v ≠ VNative ObjectPrototype →
  ∃ l, v = VRef l ∧ kind (lookup_obj h l) = KPlain.
Proof. intros Hobj Hne. by destruct (isObject_cases _ _ Hobj). Qed.

Lemma isObject_kind h l :
  isObject h (VRef l) = true ↔ kind (lookup_obj h l) = KPlain.
Proof.
  unfold isObject, isArray. simpl.
  destruct (kind (lookup_obj h l)); simpl; split; done.
Qed.
End Stores.

(** ** The relations [Cloned] and [Filled] *)

Section Relations.
Implicit Types (h : heap) (l : loc) (d u r : value) (F : loc → Prop).

(** The copy may be read in any store that agrees on its footprint. *)
Lemma Cloned_weaken F F' n h d h' h'' r :
  (∀ l, F l → l < length h' → F' l ∧ h'' !! l = h' !! l) →
  Cloned F n h d h' r → Cloned F' n h d h'' r.
Proof.
  intros HF. revert d r.
  induction n as [|n IH]; intros d r; destruct d; simpl; try done.
  intros (lr & -> & HFl & Hlt & Hkind & Hkeys & Hsub).
  destruct (HF lr HFl Hlt) as [HF' Heq].
  assert (Hobj : lookup_obj h'' lr = lookup_obj h' lr)
    by (unfold lookup_obj; by rewrite Heq).
  exists lr. split_and!; try done.
  - apply lookup_obj_lt in Hlt. rewrite <- Heq in Hlt.
    by eapply lookup_lt_Some.
  - by rewrite Hobj.
  - simpl in *. by rewrite Hobj.
  - intros key Hkey. simpl. rewrite Hobj. by apply IH, Hsub.
Qed.

Lemma Cloned_mono F F' n h d h' r :
  (∀ l, F l → F' l) → Cloned F n h d h' r → Cloned F' n h d h' r.
Proof. intros HF. apply Cloned_weaken. auto. Qed.

(** The default may be read in any extension of a closed store. *)
Lemma Cloned_base F n h hx d h' r :
  extends h hx → closed h = true → valid h d = true →
  Cloned F n hx d h' r ↔ Cloned F n h d h' r.
Proof.
  intros Hext Hc. revert d r.
  induction n as [|n IH]; intros d r Hv; destruct d; simpl; try done.
  apply valid_ref in Hv as Hl.
  assert (Ho : lookup_obj hx l = lookup_obj h l)
    by by apply extends_lookup_obj.
  rewrite Ho.
  split; intros (lr & -> & HFl & Hlt & Hkind & Hkeys & Hsub);
    exists lr; split_and!; try done;
    intros key Hkey; specialize (Hsub key Hkey);
    pose proof (valid_get h (VRef l) key Hc) as Hvk; simpl in Hvk;
    by apply (IH _ _ Hvk).
Qed.

Lemma Filled_weaken F F' n h d u h' h'' r :
  (∀ l, F l → l < length h' → F' l ∧ h'' !! l = h' !! l) →
  Filled F n h d u h' r → Filled F' n h d u h'' r.
Proof.
  intros HF. revert d u r.
  induction n as [|n IH]; intros d u r; cbn [Filled];
    destruct (isObject h d && isObject h u) eqn:E;
    try (by apply Cloned_weaken); try done.
  intros (lr & -> & HFl & Hlt & Hobj & Hkeys & Hsub).
  destruct (HF lr HFl Hlt) as [HF' Heq].
  assert (Ho : lookup_obj h'' lr = lookup_obj h' lr)
    by (unfold lookup_obj; by rewrite Heq).
  exists lr. split_and!; try done.
  - apply lookup_obj_lt in Hlt. rewrite <- Heq in Hlt.
    by eapply lookup_lt_Some.
  - apply isObject_kind. rewrite Ho. by apply isObject_kind.
  - simpl in *. by rewrite Ho.
  - intros key Hkey. specialize (Hsub key Hkey). simpl in *. rewrite Ho.
    destruct (overrides h d u key); [|by eapply Cloned_weaken].
    destruct (isObject h (get h d key)); [by apply IH|done].
Qed.

Lemma Filled_mono F F' n h d u h' r :
  (∀ l, F l → F' l) → Filled F n h d u h' r → Filled F' n h d u h' r.
Proof. intros HF. apply Filled_weaken. auto. Qed.

Lemma view_overrides h hx d u key :
  extends h hx → closed h = true → valid h d = true → valid h u = true →
  overrides hx d u key = overrides h d u key.
Proof.
  intros Hext Hc Hd Hu. unfold overrides.
  rewrite (view_has h hx), !(view_get h hx) by done.
  by rewrite !(view_typeof h hx) by (done || by apply valid_get).
Qed.

Lemma Filled_base F n h hx d u h' r :
  extends h hx → closed h = true → valid h d = true → valid h u = true →
  Filled F n hx d u h' r ↔ Filled F n h d u h' r.
Proof.
  intros Hext Hc. revert d u r.
  induction n as [|n IH]; intros d u r Hd Hu; cbn [Filled];
    rewrite !(view_isObject h hx) by done;
    destruct (isObject h d && isObject h u) eqn:E;
    try (by apply Cloned_base); try done.
  rewrite (view_keys h hx) by done.
  split; intros (lr & -> & HFl & Hlt & Hobj & Hkeys & Hsub);
    exists lr; split_and!; try done;
    intros key Hkey; specialize (Hsub key Hkey);
    pose proof (valid_get h d key Hc) as Hdk;
    pose proof (valid_get h u key Hc) as Huk.
  - rewrite (view_overrides h hx), !(view_get h hx), (view_isObject h hx)
      in Hsub by done.
    destruct (overrides h d u key);
      [|by apply (proj1 (Cloned_base F n h hx _ h' _ Hext Hc Hdk))].
    destruct (isObject h (get h d key)); [|done].
    by apply (proj1 (IH _ _ _ Hdk Huk)).
  - rewrite (view_overrides h hx), !(view_get h hx), (view_isObject h hx)
      by done.
    destruct (overrides h d u key);
      [|by apply (proj2 (Cloned_base F n h hx _ h' _ Hext Hc Hdk))].
    destruct (isObject h (get h d key)); [|done].
    by apply (proj2 (IH _ _ _ Hdk Huk)).
Qed.

Lemma warnings_base n h hx d u :
  extends h hx → closed h = true → valid h d = true → valid h u = true →
  warnings n hx d u = warnings n h d u.
Proof.
  intros Hext Hc. revert d u.
  induction n as [|n IH]; intros d u Hd Hu; simpl;
    rewrite !(view_isObject h hx) by done; [done|].
  destruct (isObject h d && isObject h u); [|done].
  rewrite (view_keys h hx) by done.
  apply flat_map_ext. intros key.
  rewrite (view_has h hx), !(view_get h hx) by done.
  rewrite !(view_typeof h hx), (view_isObject h hx) by (done || by apply valid_get).
  rewrite IH by (done || by apply valid_get). done.
Qed.

Lemma cloneable_valid n h d : cloneable n h d = true → valid h d = true.
Proof.
  destruct d; simpl; try done. destruct n; simpl; [done|].
  destruct (h !! l) eqn:E; [|done]. intros _.
  apply bool_decide_eq_true. by eapply lookup_lt_Some.
Qed.

Lemma cloneable_base n h hx d :
  extends h hx → cloneable n h d = true → cloneable n hx d = true.
Proof.
  intros Hext. revert d.
  induction n as [|n IH]; intros d; destruct d; simpl; try done.
  destruct (h !! l) as [o|] eqn:E; [|done].
  rewrite (Hext _ _ E). rewrite !andb_true_iff, !forallb_forall.
  intros [? Hall]. split; [done|]. intros kv Hkv. by apply IH, Hall.
Qed.

Lemma cloneable_get n h l key :
  cloneable (S n) h (VRef l) = true → key ∈ keys h (VRef l) →
  cloneable n h (get h (VRef l) key) = true.
Proof.
  intros Hcl Hkey. rewrite get_own by done. revert Hcl.
  simpl. unfold lookup_obj. destruct (h !! l) as [o|] eqn:E; [|done].
  rewrite andb_true_iff, forallb_forall. intros [_ Hall].
  destruct (get_prop_elem key (props o)) as [->|[k Hk]]; [by destruct n|].
  by apply (Hall (k, _)), list_elem_of_In.
Qed.

Lemma cloneable_not_native n h d b : cloneable n h d = true → d ≠ VNative b.
Proof. intros Hcl ->. by destruct n. Qed.

Lemma cloneable_not_function n h l :
  cloneable n h (VRef l) = true → is_function (lookup_obj h l) = false.
Proof.
  destruct n; simpl; [done|]. unfold lookup_obj.
  destruct (h !! l) as [o|]; [|done].
  rewrite andb_true_iff, negb_true_iff. by intros [? _].
Qed.
End Relations.

(** ** [structuredClone] *)

Section Clone.
Implicit Types (h : heap) (l : loc) (d r : value) (o : obj).

Lemma closed_snoc h o :
  closed h = true →
  (∀ kv, kv ∈ props o → valid (h ++ [o]) kv.2 = true) →
  closed (h ++ [o]) = true.
Proof.
  rewrite !closed_spec. intros Hc Ho l o' Hl kv Hkv.
  apply lookup_snoc_Some in Hl as [[Hlt Hl]|[_ <-]]; [|by apply Ho].
  eapply valid_mono; [|by eapply Hc]. rewrite length_app. lia.
Qed.

Lemma closed_insert h l o :
  closed h = true →
  (∀ kv, kv ∈ props o → valid h kv.2 = true) →
  closed (<[l := o]> h) = true.
Proof.
  rewrite !closed_spec. intros Hc Ho l' o' Hl kv Hkv.
  apply (valid_mono h); [by rewrite length_insert|].
  destruct (decide (l = l')) as [->|Hne].
  - destruct (decide (l' < length h)) as [Hlt|Hge].
    + rewrite list_lookup_insert_eq in Hl by done.
      injection Hl as <-. by apply Ho.
    + rewrite list_insert_ge in Hl by lia. by eapply Hc.
  - rewrite list_lookup_insert_ne in Hl by done. by eapply Hc.
Qed.

Section Props.
Context (n : nat) (clone : heap → value → result (heap * value)).
Context (Hclone : ∀ h d,
  closed h = true → cloneable n h d = true →
  ∃ h1 r, clone h d = Ok (h1, r) ∧ extends h h1 ∧ closed h1 = true
    ∧ valid h1 r = true
    ∧ Cloned (λ l, length h ≤ l < length h1) n h d h1 r).

Lemma clone_props_spec h0 ps :
  closed h0 = true →
  (∀ kv, kv ∈ ps → cloneable n h0 kv.2 = true) →
  ∀ h, extends h0 h → closed h = true →
  ∃ h1 ps', clone_props clone h ps = Ok (h1, ps')
    ∧ extends h h1 ∧ closed h1 = true
    ∧ map fst ps' = map fst ps
    ∧ (∀ kv, kv ∈ ps' → valid h1 kv.2 = true)
    ∧ ∀ key, Cloned (λ l, length h ≤ l < length h1) n h0
               (get_prop key ps) h1 (get_prop key ps').
Proof.
  intros Hc0. induction ps as [|[k v] ps IH]; intros Hps h Hext Hc.
  - exists h, []. split_and!; try done; [apply extends_refl| |].
    + intros kv Hkv. by apply elem_of_nil in Hkv.
    + intros key. simpl. by destruct n.
  - assert (Hv : cloneable n h0 v = true)
      by (apply (Hps (k, v)), elem_of_cons; by left).
    destruct (Hclone h v Hc (cloneable_base _ _ _ _ Hext Hv))
      as (h1 & v' & Hrun & Hext1 & Hc1 & Hv' & Hcl).
    destruct (IH (λ kv Hkv, Hps kv (proj2 (elem_of_cons _ _ _) (or_intror Hkv)))
                h1 (extends_trans _ _ _ Hext Hext1) Hc1)
      as (h2 & ps' & Hrun2 & Hext2 & Hc2 & Hkeys & Hvalid & Hcls).
    exists h2, ((k, v') :: ps'). simpl. rewrite Hrun. simpl.
    rewrite Hrun2. simpl.
    pose proof (extends_length _ _ Hext1) as Hlen1.
    pose proof (extends_length _ _ Hext2) as Hlen2.
    split_and!; try done.
    + by eapply extends_trans.
    + by rewrite Hkeys.
    + intros kv Hkv. apply elem_of_cons in Hkv as [->|Hkv]; [|by apply Hvalid].
      by eapply valid_mono.
    + intros key. destruct (String.eqb k key).
      * apply (Cloned_base _ n h0 h) in Hcl;
          [|done|done|by eapply cloneable_valid].
        eapply Cloned_weaken; [|exact Hcl].
        intros l [Hl1 Hl2] _. split; [lia|].
        destruct (h1 !! l) as [o|] eqn:E.
        -- by apply Hext2.
        -- apply lookup_ge_None in E. lia.
      * eapply Cloned_mono; [|apply Hcls]. simpl. intros l. lia.
Qed.
End Props.

(** The copy of an object: it is the last object of the new store, and the
    copies of its values lie strictly between the old store and it. *)
Lemma structuredClone_step n h l :
  (∀ h d,
    closed h = true → cloneable n h d = true →
    ∃ h1 r, structuredClone n h d = Ok (h1, r) ∧ extends h h1
      ∧ closed h1 = true ∧ valid h1 r = true
      ∧ Cloned (λ l, length h ≤ l < length h1) n h d h1 r) →
  closed h = true → cloneable (S n) h (VRef l) = true →
  ∃ h1 nl, structuredClone (S n) h (VRef l) = Ok (h1, VRef nl)
    ∧ extends h h1 ∧ closed h1 = true
    ∧ length h ≤ nl ∧ length h1 = S nl
    ∧ kind (lookup_obj h1 nl) = kind (lookup_obj h l)
    ∧ keys h1 (VRef nl) = keys h (VRef l)
    ∧ ∀ key, key ∈ keys h (VRef l) →
        Cloned (λ l', length h ≤ l' < nl) n h
          (get h (VRef l) key) h1 (get h1 (VRef nl) key).
Proof.
  intros IH Hc Hd. simpl in Hd |- *.
  unfold lookup_obj. destruct (h !! l) as [o|] eqn:Hl; [|done].
  apply andb_true_iff in Hd as [Hfun Hps].
  apply negb_true_iff in Hfun. rewrite Hfun.
  rewrite forallb_forall in Hps.
  destruct (clone_props_spec n (structuredClone n) IH h (props o) Hc)
    with (h := h)
    as (h1 & ps' & Hrun & Hext & Hc1 & Hkeys & Hvalid & Hcls);
    [by intros kv Hkv; apply Hps, list_elem_of_In|apply extends_refl|done|].
  rewrite Hrun. simpl. eexists _, _. split; [done|].
  pose proof (extends_length _ _ Hext) as Hlen.
  assert (Hnew : (h1 ++ [Obj (kind o) ps']) !! length h1
                 = Some (Obj (kind o) ps'))
    by by apply list_lookup_middle.
  rewrite Hnew. simpl. rewrite length_app. simpl.
  split_and!; try done; try lia.
  + eapply extends_trans; [done|apply extends_app].
  + apply closed_snoc; [done|]. intros kv Hkv. simpl in Hkv.
    apply (valid_mono h1); [rewrite length_app; lia|by apply Hvalid].
  + intros key Hkey. apply has_prop_keys in Hkey as Hown.
    rewrite (has_prop_ext key ps' (props o)), Hown by done.
    eapply Cloned_weaken; [|apply Hcls].
    simpl. intros l' [? ?] _. split; [lia|]. by apply lookup_app_l.
Qed.

(** The clone of a cloneable value: it is produced, nothing that existed
    changes, and the copy lives in the locations allocated by the call. *)
Lemma structuredClone_spec n h d :
  closed h = true → cloneable n h d = true →
  ∃ h1 r, structuredClone n h d = Ok (h1, r) ∧ extends h h1
    ∧ closed h1 = true ∧ valid h1 r = true
    ∧ Cloned (λ l, length h ≤ l < length h1) n h d h1 r.
Proof.
  revert h d. induction n as [|n IH]; intros h d Hc Hd.
  - destruct d; simpl in *; try done; eexists _, _;
      (split_and!; [done|apply extends_refl|done|done|done]).
  - destruct d; try done;
      try (eexists _, _;
           by (split_and!; [done|apply extends_refl|done|done|done])).
    destruct (structuredClone_step n h l IH Hc Hd)
      as (h1 & nl & Hrun & Hext & Hc1 & Hnl & Hlen & Hkind & Hkeys & Hcls).
    exists h1, (VRef nl). split_and!; try done.
    + apply valid_ref. lia.
    + exists nl. split_and!; try done; try lia.
      intros key Hkey. eapply Cloned_mono; [|by apply Hcls]. simpl. lia.
Qed.

Lemma structuredClone_record n h l :
  closed h = true → cloneable (S n) h (VRef l) = true →
  ∃ h1 nl, structuredClone (S n) h (VRef l) = Ok (h1, VRef nl)
    ∧ extends h h1 ∧ closed h1 = true
    ∧ length h ≤ nl ∧ length h1 = S nl
    ∧ kind (lookup_obj h1 nl) = kind (lookup_obj h l)
    ∧ keys h1 (VRef nl) = keys h (VRef l)
    ∧ ∀ key, key ∈ keys h (VRef l) →
        Cloned (λ l', length h ≤ l' < nl) n h
          (get h (VRef l) key) h1 (get h1 (VRef nl) key).
Proof. apply structuredClone_step, structuredClone_spec. Qed.
End Clone.

(** ** Assignment to a property *)

Section Assignment.
Implicit Types (h : heap) (l nl : loc) (v : value) (key : string).

Lemma set_length h nl key v : length (set h (VRef nl) key v) = length h.
Proof. simpl. by rewrite length_insert. Qed.

Lemma set_lookup_ne h nl key v l :
  l ≠ nl → set h (VRef nl) key v !! l = h !! l.
Proof. intros Hne. simpl. by rewrite list_lookup_insert_ne. Qed.

Lemma set_lookup_obj h nl key v :
  nl < length h →
  lookup_obj (set h (VRef nl) key v) nl
  = Obj (kind (lookup_obj h nl)) (set_prop key v (props (lookup_obj h nl))).
Proof.
  intros Hlt. apply lookup_obj_Some. simpl.
  by rewrite list_lookup_insert_eq.
Qed.

Lemma get_set_eq h nl key v :
  nl < length h → get (set h (VRef nl) key v) (VRef nl) key = v.
Proof.
  intros Hlt. unfold get. rewrite set_lookup_obj by done. simpl.
  by rewrite has_prop_set_prop, String.eqb_refl, get_prop_set_eq.
Qed.

Lemma get_set_ne h nl key key' v :
  nl < length h → key ≠ key' →
  get (set h (VRef nl) key v) (VRef nl) key' = get h (VRef nl) key'.
Proof.
  intros Hlt Hne. unfold get. rewrite set_lookup_obj by done. simpl.
  rewrite has_prop_set_prop, get_prop_set_ne by done.
  apply String.eqb_neq in Hne. by rewrite Hne.
Qed.

Lemma keys_set h nl key v :
  nl < length h → key ∈ keys h (VRef nl) →
  keys (set h (VRef nl) key v) (VRef nl) = keys h (VRef nl).
Proof.
  intros Hlt Hin. unfold keys. rewrite set_lookup_obj by done. simpl.
  by apply keys_set_prop.
Qed.

Lemma isObject_set h nl key v :
  nl < length h →
  isObject (set h (VRef nl) key v) (VRef nl) = isObject h (VRef nl).
Proof.
  intros Hlt. apply eq_true_iff_eq. rewrite !isObject_kind.
  by rewrite set_lookup_obj.
Qed.

Lemma closed_set h nl key v :
  closed h = true → valid h v = true →
  closed (set h (VRef nl) key v) = true.
Proof.
  intros Hc Hv. simpl. apply closed_insert; [done|]. simpl.
  intros kv Hkv. apply set_prop_elem in Hkv as [Hkv| ->]; [|done].
  unfold lookup_obj in Hkv. destruct (h !! nl) as [o|] eqn:E.
  - rewrite closed_spec in Hc. by eapply Hc.
  - by apply elem_of_nil in Hkv.
Qed.
End Assignment.

(** ** The loop of [defaultFill] *)

#[local] Arguments set : simpl never.

Lemma cloneable_get_value n (h : heap) d key :
  cloneable (S n) h d = true → key ∈ keys h d →
  cloneable n h (get h d key) = true.
Proof.
  destruct d; try (by intros _ ?%elem_of_nil). apply cloneable_get.
Qed.


Section Loop.
Context (n : nat)
        (fill : heap → value → value → result (heap * value * list value)).
Context (Hfill : ∀ h d u,
  closed h = true → valid h d = true → valid h u = true →
  cloneable n h d = true →
  ∃ h' r, fill h d u = Ok (h', r, warnings n h d u)
    ∧ extends h h' ∧ closed h' = true ∧ valid h' r = true
    ∧ Filled (fresh_from h) n h d u h' r).

(** The store [h] and the values [d], [u] the call started with, and the
    location [nl] of the new object. *)
Context (h : heap) (d u : value) (nl : loc).
Context (Hc : closed h = true) (Hd : valid h d = true)
        (Hu : valid h u = true) (Hcl : cloneable (S n) h d = true)
        (Hnl : length h ≤ nl).

Lemma key_done_stable hc hc' key :
  (∀ l, inner h nl l → l < length hc → hc' !! l = hc !! l) →
  get hc' (VRef nl) key = get hc (VRef nl) key →
  key_done n h d u nl hc key → key_done n h d u nl hc' key.
Proof.
  intros Hag Hget. unfold key_done. rewrite Hget.
  destruct (overrides h d u key).
  - destruct (isObject h (get h d key)); [|done].
    apply Filled_weaken. auto.
  - apply Cloned_weaken. auto.
Qed.

Lemma key_todo_stable hc hc' key :
  (∀ l, inner h nl l → l < length hc → hc' !! l = hc !! l) →
  get hc' (VRef nl) key = get hc (VRef nl) key →
  key_todo n h d nl hc key → key_todo n h d nl hc' key.
Proof.
  intros Hag Hget. unfold key_todo. rewrite Hget.
  apply Cloned_weaken. auto.
Qed.

(** Skipping a key: nothing is written. *)
Lemma loop_inv_skip hc visited key :
  overrides h d u key = false →
  loop_inv n h d u nl hc visited → loop_inv n h d u nl hc (key :: visited).
Proof.
  intros Hov (Hext & Hcc & Hlt & Hobj & Hkeys & Hall).
  split_and!; try done. intros key' Hkey'.
  destruct (Hall key' Hkey') as [Hdone Htodo]. split.
  - intros Hin. destruct (decide (key' ∈ visited)) as [?|Hnot]; [auto|].
    apply elem_of_cons in Hin as [->|?]; [|done].
    unfold key_done. rewrite Hov. by apply Htodo.
  - intros Hnot. apply Htodo. intros ?. apply Hnot, elem_of_cons. by right.
Qed.

(** Writing the value [v] under [key], in a store [h2] that extends the
    current one. *)
Lemma loop_inv_set hc h2 visited key v :
  loop_inv n h d u nl hc visited →
  extends hc h2 → closed h2 = true → valid h2 v = true →
  key ∈ keys h d →
  key_done n h d u nl (set h2 (VRef nl) key v) key →
  loop_inv n h d u nl (set h2 (VRef nl) key v) (key :: visited).
Proof.
  intros (Hext & Hcc & Hlt & Hobj & Hkeys & Hall) Hext2 Hc2 Hv Hkey Hnew.
  pose proof (extends_length _ _ Hext2) as Hlen2.
  assert (Hlt2 : nl < length h2) by lia.
  assert (Hnl2 : lookup_obj h2 nl = lookup_obj hc nl)
    by by apply extends_lookup_obj.
  assert (Hag : ∀ l, inner h nl l → l < length hc →
                     set h2 (VRef nl) key v !! l = hc !! l).
  { intros l [_ Hne] Hl. rewrite set_lookup_ne by done.
    apply lookup_obj_lt in Hl. by rewrite (Hext2 _ _ Hl). }
  assert (Hget : ∀ key', key ≠ key' →
            get (set h2 (VRef nl) key v) (VRef nl) key'
            = get hc (VRef nl) key').
  { intros key' Hne. rewrite get_set_ne by done. simpl. by rewrite Hnl2. }
  split_and!.
  - intros l o Hl. rewrite set_lookup_ne.
    + by apply Hext2, Hext.
    + apply lookup_lt_Some in Hl. lia.
  - by apply closed_set.
  - by rewrite set_length.
  - rewrite isObject_set by done. apply isObject_kind. rewrite Hnl2.
    by apply isObject_kind.
  - rewrite keys_set; simpl; rewrite ?Hnl2; try done.
    simpl in Hkeys. by rewrite Hkeys.
  - intros key' Hkey'. destruct (Hall key' Hkey') as [Hdone Htodo].
    destruct (decide (key = key')) as [<-|Hne].
    + split; [done|]. intros Hnot. exfalso. apply Hnot, elem_of_cons. by left.
    + split.
      * intros Hin. apply elem_of_cons in Hin as [->|Hin]; [done|].
        eapply key_done_stable; eauto.
      * intros Hnot. eapply key_todo_stable; eauto.
        apply Htodo. intros ?. apply Hnot, elem_of_cons. by right.
Qed.

Lemma fill_keys_spec todo :
  (∀ key, key ∈ todo → key ∈ keys h d) →
  ∀ hc visited, loop_inv n h d u nl hc visited →
  ∃ h', fill_keys fill d u (VRef nl) todo hc
        = Ok (h', flat_map (key_warnings n h d u) todo)
    ∧ loop_inv n h d u nl h' (rev todo ++ visited).
Proof.
  induction todo as [|key rest IH]; intros Htodo hc visited Hinv.
  { exists hc. by split. }
  assert (Hkey : key ∈ keys h d) by (apply Htodo, elem_of_cons; by left).
  assert (Hrest : ∀ key', key' ∈ rest → key' ∈ keys h d)
    by (intros key' ?; apply Htodo, elem_of_cons; by right).
  specialize (IH Hrest).
  pose proof Hinv as (Hext & Hcc & Hlt & Hobj & Hkeys & Hall).
  pose proof (valid_get h d key Hc) as Hdk.
  pose proof (valid_get h u key Hc) as Huk.
  simpl fill_keys. simpl flat_map. simpl rev. rewrite <- app_assoc. simpl.
  rewrite (view_has h hc), !(view_get h hc) by done.
  rewrite !(view_typeof h hc), (view_isObject h hc) by done.
  unfold key_warnings at 1.
  destruct (has h u key && negb (is_undefined (get h u key))) eqn:Ehas.
  - destruct (String.eqb (typeof h (get h d key)) (typeof h (get h u key)))
      eqn:Etype; simpl negb; cbv iota.
    + destruct (isObject h (get h d key)) eqn:Eobj.
      * (* the default is a record: recursive call, then assignment *)
        destruct (Hfill hc (get h d key) (get h u key))
          as (h2 & r & Hrun & Hext2 & Hc2 & Hr & Hfilled);
          [done|by apply (view_valid h hc)|by apply (view_valid h hc)
          |by apply (cloneable_base _ h), cloneable_get_value|].
        rewrite Hrun. simpl.
        rewrite (warnings_base n h hc) by done.
        destruct (IH (set h2 (VRef nl) key r) (key :: visited))
          as (h' & Hloop & Hinv').
        { apply (loop_inv_set hc); try done.
          unfold key_done, overrides. rewrite Ehas, Etype. cbn [andb].
          rewrite Eobj.
          rewrite get_set_eq
            by (pose proof (extends_length _ _ Hext2); lia).
          apply (Filled_base _ n h hc) in Hfilled; try done.
          eapply Filled_weaken; [|exact Hfilled].
          intros l Hl _. unfold fresh_from in Hl.
          pose proof (extends_length _ _ Hext).
          split; [split; lia|]. apply set_lookup_ne. lia. }
        rewrite Hloop. simpl. eauto.
      * (* the default is a scalar: the user's value is assigned *)
        destruct (IH (set hc (VRef nl) key (get h u key)) (key :: visited))
          as (h' & Hloop & Hinv').
        { apply (loop_inv_set hc); try done.
          - apply extends_refl.
          - by apply (view_valid h hc).
          - unfold key_done, overrides. rewrite Ehas, Etype. cbn [andb].
          rewrite Eobj.
            by rewrite get_set_eq. }
        rewrite Hloop. simpl. eauto.
    + (* the types differ: warn and keep the default *)
      destruct (IH hc (key :: visited)) as (h' & Hloop & Hinv').
      { apply loop_inv_skip; [|done].
        unfold overrides. by rewrite Ehas, Etype. }
      rewrite Hloop. simpl. eauto.
  - destruct (IH hc (key :: visited)) as (h' & Hloop & Hinv').
    { apply loop_inv_skip; [|done]. unfold overrides. by rewrite Ehas. }
    rewrite Hloop. eauto.
Qed.
End Loop.

(** ** [defaultFill] meets its description *)

#[local] Arguments keys : simpl never.
#[local] Arguments get : simpl never.
#[local] Arguments isObject : simpl never.

(** On every closed store and every default without functions, symbols or
    cycles, [defaultFill] returns; it leaves every existing object as it was,
    and what it returns and prints is what [Filled] and [warnings] say. *)
Lemma defaultFill_spec n (h : heap) d u :
  closed h = true → valid h d = true → valid h u = true →
  cloneable n h d = true →
  ∃ h' r, defaultFill n h d u = Ok (h', r, warnings n h d u)
    ∧ extends h h' ∧ closed h' = true ∧ valid h' r = true
    ∧ Filled (fresh_from h) n h d u h' r.
Proof.
  revert h d u. induction n as [|n IH]; intros h d u Hc Hd Hu Hcl.
  - destruct d; try done; exists h; eexists;
      (split_and!; [reflexivity|apply extends_refl|done|done|reflexivity]).
  - cbn [defaultFill warnings Filled].
    destruct (isObject h d && isObject h u) eqn:Eobj.
    + apply andb_true_iff in Eobj as [Edo Euo].
      destruct (isObject_ref _ _ Edo (cloneable_not_native _ _ _ _ Hcl))
        as (ld & -> & Hkind).
      destruct (structuredClone_record n h ld Hc Hcl)
        as (h1 & nl & Hrun & Hext & Hc1 & Hnl & Hlen & Hk1 & Hkeys & Hcls).
      rewrite Hrun. simpl.
      rewrite !(view_isObject h h1), Edo, Euo by done. simpl.
      rewrite (view_keys h h1) by done.
      destruct (fill_keys_spec n (defaultFill n) IH h (VRef ld) u nl
                  Hc Hd Hu Hcl Hnl (keys h (VRef ld)) (λ _ H, H) h1 [])
        as (h' & Hloop & Hinv).
      { split_and!; try done; try lia.
        - apply isObject_kind. rewrite Hk1. by apply isObject_kind.
        - intros key Hkey. split; [intros Hin; by apply elem_of_nil in Hin|].
          intros _. eapply Cloned_mono; [|by apply Hcls].
          simpl. unfold inner. lia. }
      rewrite Hloop. simpl.
      destruct Hinv as (Hext' & Hc' & Hlt' & Hobj' & Hkeys' & Hall).
      exists h', (VRef nl). split_and!; try done.
      * by apply (proj2 (valid_ref _ _)).
      * exists nl. split_and!; try done.
        intros key Hkey. destruct (Hall key Hkey) as [Hdone _].
        assert (Hin : key ∈ rev (keys h (VRef ld)) ++ [])
          by (rewrite app_nil_r; by apply list_elem_of_In, in_rev, list_elem_of_In in Hkey).
        specialize (Hdone Hin). unfold key_done in Hdone.
        destruct (overrides h (VRef ld) u key).
        -- destruct (isObject h (get h (VRef ld) key)); [|done].
           eapply Filled_mono; [|exact Hdone]. unfold inner. by intros l [? _].
        -- eapply Cloned_mono; [|exact Hdone]. unfold inner. by intros l [? _].
    + destruct (structuredClone_spec (S n) h d Hc Hcl)
        as (h1 & r & Hrun & Hext & Hc1 & Hr & Hcloned).
      rewrite Hrun. cbn [mbind result_bind].
      rewrite !(view_isObject h h1), Eobj by done.
      exists h1, r. split_and!; try done.
      eapply Cloned_mono; [|exact Hcloned]. simpl. unfold fresh_from. lia.
Qed.

(** ** Consequences: shape, reachability *)

Section Consequences.
Implicit Types (h : heap) (l : loc) (d u r : value) (F : loc → Prop).

Lemma typeof_kind h h' l l' :
  kind (lookup_obj h' l') = kind (lookup_obj h l) →
  typeof h' (VRef l') = typeof h (VRef l).
Proof. unfold typeof. by intros ->. Qed.

Lemma isObject_typeof h v : isObject h v = true → typeof h v = "object".
Proof.
  unfold isObject. rewrite !andb_true_iff, String.eqb_eq. tauto.
Qed.

Lemma isObject_not_prim h d :
  isObject h d = true → d ≠ VNative ObjectPrototype → ∃ l, d = VRef l.
Proof. intros H Hne. apply isObject_ref in H as (l & -> & _); eauto. Qed.

Lemma Cloned_not_native F n h d h' r b : Cloned F n h d h' r → d ≠ VNative b.
Proof. intros Hcl ->. by destruct n. Qed.

Lemma Cloned_typeof F n h d h' r :
  Cloned F n h d h' r → typeof h' r = typeof h d.
Proof.
  destruct n, d; simpl; try done; try by intros ->.
  intros (lr & -> & _ & _ & Hkind & _). by apply typeof_kind.
Qed.

Lemma Cloned_isObject F n h d h' r :
  Cloned F n h d h' r → isObject h' r = isObject h d.
Proof.
  destruct n, d; simpl; try done; try by intros ->.
  intros (lr & -> & _ & _ & Hkind & _).
  apply eq_true_iff_eq. rewrite !isObject_kind. by rewrite Hkind.
Qed.

Lemma Cloned_is_undefined F n h d h' r :
  Cloned F n h d h' r → is_undefined r = is_undefined d.
Proof.
  destruct n, d; simpl; try done; try by intros ->.
  by intros (lr & -> & _).
Qed.

Lemma Cloned_same_shape F n h d h' r :
  Cloned F n h d h' r → same_shape n h d h' r.
Proof.
  revert d r. induction n as [|n IH]; intros d r Hcl.
  - split; [symmetry; by eapply Cloned_typeof|].
    intros Hobj.
    apply isObject_not_prim in Hobj as [l ->];
      [done|by eapply Cloned_not_native].
  - split; [symmetry; by eapply Cloned_typeof|]. intros Hobj.
    split; [by rewrite (Cloned_isObject _ _ _ _ _ _ Hcl)|].
    apply isObject_not_prim in Hobj as [l ->];
      [|by eapply Cloned_not_native].
    destruct Hcl as (lr & -> & _ & _ & _ & Hkeys & Hsub).
    split; [done|]. intros key Hkey. by apply IH, Hsub.
Qed.

Lemma Filled_isObject F n h d u h' r :
  Filled F n h d u h' r → isObject h d = true → isObject h' r = true.
Proof.
  intros Hf Hobj. destruct n; cbn [Filled] in Hf;
    destruct (isObject h d && isObject h u);
    try (by rewrite (Cloned_isObject _ _ _ _ _ _ Hf)); try done.
  by destruct Hf as (lr & -> & _ & _ & ? & _).
Qed.

(** The merge under a record default is an object of the store. *)
Lemma Filled_ref F n h d u h' r :
  Filled F n h d u h' r → isObject h d = true → ∃ l, r = VRef l.
Proof.
  intros Hf Hobj.
  destruct (isObject h u) eqn:Eu.
  - destruct n; cbn [Filled] in Hf; rewrite Hobj, Eu in Hf;
      cbn [andb] in Hf; [done|].
    destruct Hf as (lr & -> & _). eauto.
  - assert (Hcl : Cloned F n h d h' r).
    { destruct n; cbn [Filled] in Hf; by rewrite Hobj, Eu in Hf. }
    destruct (isObject_not_prim _ _ Hobj (Cloned_not_native _ _ _ _ _ _ _ Hcl))
      as [ld ->].
    destruct n; simpl in Hcl; [done|].
    destruct Hcl as (lr & -> & _). eauto.
Qed.

Lemma overrides_typeof h d u key :
  overrides h d u key = true →
  has h u key = true ∧ is_undefined (get h u key) = false
  ∧ typeof h (get h d key) = typeof h (get h u key).
Proof.
  unfold overrides. rewrite !andb_true_iff, negb_true_iff, String.eqb_eq.
  by intros [[? ?] ?].
Qed.

Lemma Filled_same_shape F n h d u h' r :
  extends h h' → closed h = true → valid h d = true → valid h u = true →
  Filled F n h d u h' r → same_shape n h d h' r.
Proof.
  intros Hext Hc. revert d u r.
  induction n as [|n IH]; intros d u r Hd Hu Hf; cbn [Filled] in Hf;
    destruct (isObject h d && isObject h u) eqn:E;
    try done; try (by apply (Cloned_same_shape F)).
  apply andb_true_iff in E as [Ed Eu].
  destruct Hf as (lr & -> & _ & Hlt & Hobj & Hkeys & Hsub).
  split; [by rewrite (isObject_typeof _ _ Ed), (isObject_typeof _ _ Hobj)|].
  intros _.
  split_and!; try done. intros key Hkey. specialize (Hsub key Hkey).
  pose proof (valid_get h d key Hc) as Hdk.
  pose proof (valid_get h u key Hc) as Huk.
  destruct (overrides h d u key) eqn:Eov;
    [|by apply (Cloned_same_shape F)].
  destruct (isObject h (get h d key)) eqn:Eobj;
    [exact (IH _ _ _ Hdk Huk Hsub)|].
  apply overrides_typeof in Eov as (_ & _ & Htype).
  rewrite Hsub. destruct n; (split;
    [by rewrite Htype, (view_typeof h h')|by rewrite Eobj]).
Qed.

(** *** Reachability *)

Lemma reach_ref h v l : reach h v l → ∃ l0, v = VRef l0.
Proof. destruct 1; eauto. Qed.


Lemma reach_inv h l0 l :
  reach h (VRef l0) l →
  l = l0 ∨ ∃ key, key ∈ keys h (VRef l0)
                  ∧ reach h (get h (VRef l0) key) l.
Proof. inversion 1; subst; eauto. Qed.





Lemma Cloned_reach F n h d h' r l :
  Cloned F n h d h' r → reach h' r l → F l.
Proof.
  revert d r. induction n as [|n IH]; intros d r Hcl Hr.
  - destruct d; simpl in Hcl; try done; subst;
      by apply reach_ref in Hr as [? ?].
  - destruct d; simpl in Hcl;
      try (subst; by apply reach_ref in Hr as [? ?]).
    destruct Hcl as (lr & -> & HF & _ & _ & Hkeys & Hsub).
    apply reach_inv in Hr as [->|(key & Hkey & Hr)]; [done|].
    rewrite Hkeys in Hkey. by eapply IH; [apply Hsub|].
Qed.




End Consequences.

(** ** Merging a merged value again *)

Section Idempotence.
Context (h h1 h2 : heap).
Context (Hc : closed h = true) (Hc1 : closed h1 = true)
        (Hext1 : extends h h1) (Hext2 : extends h1 h2).
Implicit Types (d u m : value) (F : loc → Prop).

Lemma typeof_undefined (h0 : heap) v :
  typeof h0 v = "undefined" → v = VUndefined.
Proof.
  destruct v as [| | | | | | |l|[|]]; simpl; try done.
  by destruct (kind (lookup_obj h0 l)).
Qed.

Lemma Filled_of_Cloned F n d m :
  Cloned F n h d h1 m → Filled F n h d VUndefined h1 m.
Proof.
  destruct n; cbn [Filled];
    by replace (isObject h d && isObject h VUndefined) with false
      by by rewrite andb_false_r.
Qed.

Lemma deep_eq_refl n (h0 : heap) v : deep_eq n h0 v v.
Proof. destruct n; by left. Qed.

(** Two copies of one value are deeply equal. *)
Lemma clones_deep_eq F F2 n d m m2 :
  valid h1 m = true →
  Cloned F n h d h1 m → Cloned F2 n h d h2 m2 → deep_eq n h2 m m2.
Proof.
  revert d m m2. induction n as [|n IH]; intros d m m2 Hm H1 H2.
  - destruct d; simpl in H1, H2; try done; subst; by left.
  - destruct d; simpl in H1, H2; try (subst; by left).
    destruct H1 as (lm & -> & _ & Hlm & Hk1 & Hkeys1 & Hsub1).
    destruct H2 as (lm2 & -> & _ & Hlm2 & Hk2 & Hkeys2 & Hsub2).
    pose proof (extends_length _ _ Hext2) as Hlen.
    right. split_and!; try lia.
    + rewrite (extends_lookup_obj h1 h2) by done. congruence.
    + rewrite (view_keys h1 h2) by done. congruence.
    + intros key Hkey. rewrite (view_keys h1 h2), Hkeys1 in Hkey by done.
      rewrite (view_get h1 h2) by done.
      eapply IH; [by apply valid_get|apply Hsub1|apply Hsub2]; done.
Qed.

(** What the first merge leaves under a record default. *)
Lemma Filled_record F n d u m :
  valid h d = true → valid h u = true →
  isObject h d = true → Filled F n h d u h1 m →
  ∃ n', n = S n' ∧ isObject h1 m = true ∧ keys h1 m = keys h d
    ∧ ∀ key, key ∈ keys h d →
        (isObject h (get h d key) = true →
           ∃ ux, valid h ux = true
             ∧ Filled F n' h (get h d key) ux h1 (get h1 m key))
        ∧ (isObject h (get h d key) = false →
             typeof h1 (get h1 m key) = typeof h (get h d key)).
Proof.
  intros Hd Hu Hobj Hf.
  pose proof (Filled_isObject _ _ _ _ _ _ _ Hf Hobj) as Hm.
  destruct (isObject h u) eqn:Eu.
  - destruct n as [|n]; cbn [Filled] in Hf; rewrite Hobj, Eu in Hf;
      cbn [andb] in Hf; [done|].
    exists n. split; [done|]. split; [done|].
    destruct Hf as (lm & -> & _ & _ & _ & Hkeys & Hsub).
    split; [done|]. intros key Hkey. specialize (Hsub key Hkey).
    pose proof (valid_get h u key Hc) as Huk.
    destruct (overrides h d u key) eqn:Eov.
    + apply overrides_typeof in Eov as (_ & _ & Htype).
      destruct (isObject h (get h d key)) eqn:Ek.
      * split; [intros _; exists (get h u key); by split|done].
      * split; [done|]. intros _.
        by rewrite Hsub, (view_typeof h h1), Htype.
    + split.
      * intros _. exists VUndefined. split; [done|].
        by apply Filled_of_Cloned.
      * intros _. by eapply Cloned_typeof.
  - assert (Hcl : Cloned F n h d h1 m).
    { destruct n; cbn [Filled] in Hf; by rewrite Hobj, Eu in Hf. }
    destruct (isObject_not_prim _ _ Hobj (Cloned_not_native _ _ _ _ _ _ _ Hcl))
      as [ld ->].
    destruct n as [|n]; simpl in Hcl; [done|].
    exists n. split; [done|]. split; [done|].
    destruct Hcl as (lm & -> & _ & _ & _ & Hkeys & Hsub).
    split; [done|]. intros key Hkey. specialize (Hsub key Hkey). split.
    + intros _. exists VUndefined. split; [done|].
      by apply Filled_of_Cloned.
    + intros _. by eapply Cloned_typeof.
Qed.

(** Merging the result of a merge again gives a deeply equal value. *)
Lemma Filled_twice F F2 n d u m m2 :
  valid h d = true → valid h u = true → valid h1 m = true →
  Filled F n h d u h1 m → Filled F2 n h1 d m h2 m2 →
  deep_eq n h2 m m2.
Proof.
  revert d u m m2.
  induction n as [|n IH]; intros d u m m2 Hd Hu Hm H1 H2;
    destruct (isObject h d) eqn:Ed.
  - by destruct (Filled_record _ _ _ _ _ Hd Hu Ed H1) as (? & ? & _).
  - cbn [Filled] in H1, H2.
    rewrite (view_isObject h h1), Ed in H2 by done. rewrite Ed in H1.
    cbn [andb] in H1, H2.
    apply (clones_deep_eq F F2 _ d); [done|done|].
    by apply (Cloned_base F2 _ h h1).
  - destruct (Filled_record _ _ _ _ _ Hd Hu Ed H1)
      as (n' & [= <-] & Hmobj & Hkeys & Hinfo).
    cbn [Filled] in H2.
    rewrite (view_isObject h h1), Ed, Hmobj in H2 by done. simpl in H2.
    destruct H2 as (lm2 & -> & _ & Hlm2 & Hobj2 & Hkeys2 & Hsub2).
    destruct (Filled_ref _ _ _ _ _ _ _ H1 Ed) as [lm ->].
    apply isObject_kind in Hmobj as Hkm.
    apply valid_ref in Hm as Hlm.
    pose proof (extends_length _ _ Hext2) as Hlen.
    rewrite (view_keys h h1) in Hkeys2, Hsub2 by done.
    right. split_and!; try lia.
    + rewrite (extends_lookup_obj h1 h2) by done.
      apply isObject_kind in Hobj2. congruence.
    + rewrite (view_keys h1 h2) by done. congruence.
    + intros key Hkey. rewrite (view_keys h1 h2), Hkeys in Hkey by done.
      rewrite (view_get h1 h2) by done.
      specialize (Hsub2 key Hkey). destruct (Hinfo key Hkey) as [Hrec Hleaf].
      pose proof (valid_get h d key Hc) as Hdk.
      pose proof (valid_get h1 (VRef lm) key Hc1) as Hmk.
      assert (Hhas : has h1 (VRef lm) key = true).
      { apply hasOwn_has, hasOwn_keys. by rewrite Hkeys. }
      unfold overrides in Hsub2.
      rewrite Hhas, !(view_get h h1 Hext1 d),
        (view_isObject h h1 Hext1 (get h d key)),
        (view_typeof h h1 Hext1 (get h d key)) in Hsub2 by done.
      simpl in Hsub2.
      destruct (isObject h (get h d key)) eqn:Ek.
      * destruct (Hrec eq_refl) as (ux & Hux & Hfk).
        pose proof (Filled_isObject _ _ _ _ _ _ _ Hfk Ek) as Hmkobj.
        rewrite (isObject_typeof _ _ Ek), (isObject_typeof _ _ Hmkobj)
          in Hsub2.
        destruct (Filled_ref _ _ _ _ _ _ _ Hfk Ek) as [lk Hlk].
        assert (Hdef : is_undefined (get h1 (VRef lm) key) = false)
          by by rewrite Hlk.
        rewrite Hdef in Hsub2. simpl in Hsub2.
        exact (IH _ ux _ _ Hdk Hux Hmk Hfk Hsub2).
      * specialize (Hleaf eq_refl). rewrite Hleaf in Hsub2.
        rewrite String.eqb_refl, andb_true_r in Hsub2.
        destruct (is_undefined (get h1 (VRef lm) key)) eqn:Eund;
          simpl in Hsub2; [|rewrite Hsub2; apply deep_eq_refl].
        assert (Hmu : get h1 (VRef lm) key = VUndefined)
          by by destruct (get h1 (VRef lm) key).
        rewrite Hmu in Hleaf |- *. simpl in Hleaf. symmetry in Hleaf.
        apply typeof_undefined in Hleaf. rewrite Hleaf in Hsub2.
        replace (get h2 (VRef lm2) key) with VUndefined
          by (destruct n; simpl in Hsub2; by rewrite Hsub2).
        apply deep_eq_refl.
  - cbn [Filled] in H1, H2.
    rewrite (view_isObject h h1), Ed in H2 by done. rewrite Ed in H1.
    cbn [andb] in H1, H2.
    apply (clones_deep_eq F F2 _ d); [done|done|].
    by apply (Cloned_base F2 _ h h1).
Qed.
End Idempotence.

(** * The rotation engine *)

Import Examples.

(** C2. In continuous mode the angles computed from an absolute [Date] are
    [hourDeg = (hours % 12)/12 * 360 + minutes/60 * 30],
    [minuteDeg = minutes/60 * 360 + seconds/60 * 6] and
    [secondDeg = seconds/60 * 360], both when a dynamic interface is mounted
    and when its [time] changes; at 03:15:30 they are 97.5, 93 and 180. *)
Theorem continuous_angles :
  (∀ (time : Date) (s : Interface),
     let hours := num (Z.rem (getHours time) 12) in
     let minutes := num (getMinutes time) in
     let seconds := num (getSeconds time) in
     let angles :=
       {| hour := (hours / 12 * 360 + minutes / 60 * 30)%float;
          minute := (minutes / 60 * 360 + seconds / 60 * 6)%float;
          second := (seconds / 60 * 360)%float |} in
     degRotations (mount time true) = angles
     ∧ degRotations (step s (Update time true)) = angles)
  ∧ degRotations (mount at_03_15_30 true)
    = {| hour := 97.5; minute := 93; second := 180 |}.
Proof. split; [by intros time s|]. reflexivity. Qed.

(** C7. The front segment's alignment offset is
    [frontHeight - frontBaseHeight] for [PIVOT], [0] for [TICK] and
    [(frontHeight + pivotSize/2 - frontBaseHeight) / 2] for [CENTER]; for
    heights 80 and 120 and a pivot of 20 the offsets are -40, 0 and -15. *)
Theorem alignment_offsets :
  (∀ frontHeight frontBaseHeight pivotSize : float,
     frontAlignmentTranslation "PIVOT" frontHeight frontBaseHeight pivotSize
     = (frontHeight - frontBaseHeight)%float
     ∧ frontAlignmentTranslation "TICK" frontHeight frontBaseHeight pivotSize
       = 0%float
     ∧ frontAlignmentTranslation "CENTER" frontHeight frontBaseHeight pivotSize
       = ((frontHeight + pivotSize / 2 - frontBaseHeight) / 2)%float)
  ∧ frontAlignmentTranslation "PIVOT" 80 120 20 = (-40)%float
  ∧ frontAlignmentTranslation "TICK" 80 120 20 = 0%float
  ∧ frontAlignmentTranslation "CENTER" 80 120 20 = (-15)%float.
Proof. split_and!; try reflexivity. by intros. Qed.

(** C8. While the interval is armed, each tick adds 1/120 of a degree to the
    hour angle, 0.1 to the minute angle and 6 to the second angle of the
    previous state, whatever the time is. *)
Theorem tick_increments (s : Interface) :
  interval s = true →
  degRotations (step s TimerFires)
  = {| hour := (hour (degRotations s) + 1 / 120)%float;
       minute := (minute (degRotations s) + 0.1)%float;
       second := (second (degRotations s) + 6)%float |}
  ∧ interval (step s TimerFires) = true.
Proof. intros Harmed. simpl. by rewrite Harmed. Qed.

Lemma tick_increments_witness :
  interval (mount at_00_00_59 true) = true
  ∧ degRotations (step (mount at_00_00_59 true) TimerFires)
    = {| hour := (hour (degRotations (mount at_00_00_59 true)) + 1 / 120)%float;
         minute := (minute (degRotations (mount at_00_00_59 true)) + 0.1)%float;
         second := (second (degRotations (mount at_00_00_59 true)) + 6)%float |}
  ∧ interval (step (mount at_00_00_59 true) TimerFires) = true.
Proof.
  split; [reflexivity|].
  apply (tick_increments (mount at_00_00_59 true)). reflexivity.
Defined.

(** The tick does not read the clock: one tick after 00:00:59 the second
    angle is 360, where the angle of 00:01:00 is 0. *)
Example tick_is_not_a_clock_read :
  second (degRotations (step (mount at_00_00_59 true) TimerFires)) = 360%float
  ∧ second (degRotations (mount at_00_01_00 true)) = 0%float.
Proof. split; reflexivity. Qed.

(** [Math.max] and the order of binary64 numbers. *)

Section FloatOrder.
Import SpecFloat.

Lemma SFcompare_antisym x y :
  SFcompare y x = option_map CompOpp (SFcompare x y).
Proof.
  destruct x as [sx|sx| |sx mx ex], y as [sy|sy| |sy my ey]; simpl; try done;
    try (by destruct sx); try (by destruct sy); try (by destruct sx, sy).
  destruct sx, sy; try done.
  all: rewrite (Z.compare_antisym ex ey); destruct (ex ?= ey)%Z eqn:E;
    simpl; try done.
  all: change (PosDef.Pos.compare_cont Eq my mx) with (my ?= mx)%positive;
    change (PosDef.Pos.compare_cont Eq mx my) with (mx ?= my)%positive;
    rewrite (Pos.compare_antisym mx my); by destruct (mx ?= my)%positive.
Qed.

Lemma SFcompare_total x y :
  SFcompare x x = Some Eq → SFcompare y y = Some Eq →
  ∃ c, SFcompare x y = Some c.
Proof. destruct x, y; simpl; try done; eauto. Qed.

(** [Math.max] of two numbers, neither of them NaN, is one of the two and
    no less than either. *)
Lemma Math_max_spec (a b : float) :
  PrimFloat.is_nan a || PrimFloat.is_nan b = false →
  (Math_max a b = a ∨ Math_max a b = b)
  ∧ PrimFloat.leb a (Math_max a b) = true
  ∧ PrimFloat.leb b (Math_max a b) = true.
Proof.
  intros Hnan. unfold Math_max. rewrite Hnan.
  apply orb_false_iff in Hnan as [Ha Hb].
  unfold PrimFloat.is_nan in Ha, Hb.
  apply negb_false_iff in Ha, Hb.
  rewrite FloatAxioms.eqb_spec in Ha, Hb. unfold SFeqb in Ha, Hb.
  assert (Haa : SFcompare (Prim2SF a) (Prim2SF a) = Some Eq)
    by (by destruct (SFcompare (Prim2SF a) (Prim2SF a)) as [[]|]).
  assert (Hbb : SFcompare (Prim2SF b) (Prim2SF b) = Some Eq)
    by (by destruct (SFcompare (Prim2SF b) (Prim2SF b)) as [[]|]).
  destruct (SFcompare_total _ _ Haa Hbb) as [c Hab].
  pose proof (SFcompare_antisym (Prim2SF a) (Prim2SF b)) as Hba.
  rewrite Hab in Hba. simpl in Hba.
  rewrite !FloatAxioms.ltb_spec. unfold SFltb. rewrite Hab, Hba.
  destruct c; simpl.
  - destruct (PrimFloat.get_sign a);
      rewrite !FloatAxioms.leb_spec; unfold SFleb; rewrite ?Hab, ?Hba, ?Haa, ?Hbb; auto.
  - rewrite !FloatAxioms.leb_spec; unfold SFleb; rewrite ?Hab, ?Hbb; auto.
  - rewrite !FloatAxioms.leb_spec; unfold SFleb; rewrite ?Hba, ?Haa; auto.
Qed.
End FloatOrder.

(** C9. The width of a hand is [max(frontBaseWidth, backWidth)]: the result
    of [Math.max], which is one of the two widths and no less than either
    when both are numbers, and NaN when one of them is NaN.  Its length is
    [backHeight + frontBaseHeight].  The front segment takes no part in
    either. *)
Theorem hand_bounding_box (clockHand : ClockHandOptions) (degrees pivotSize : float) :
  hand_width (ClockHand clockHand degrees pivotSize)
  = Math_max (width (frontBase clockHand)) (width (back clockHand))
  ∧ (PrimFloat.is_nan (width (frontBase clockHand))
     || PrimFloat.is_nan (width (back clockHand)) = false →
     (hand_width (ClockHand clockHand degrees pivotSize)
      = width (frontBase clockHand)
      ∨ hand_width (ClockHand clockHand degrees pivotSize)
        = width (back clockHand))
     ∧ PrimFloat.leb (width (frontBase clockHand))
         (hand_width (ClockHand clockHand degrees pivotSize)) = true
     ∧ PrimFloat.leb (width (back clockHand))
         (hand_width (ClockHand clockHand degrees pivotSize)) = true)
  ∧ (PrimFloat.is_nan (width (frontBase clockHand))
     || PrimFloat.is_nan (width (back clockHand)) = true →
     PrimFloat.is_nan (hand_width (ClockHand clockHand degrees pivotSize))
     = true)
  ∧ hand_height (ClockHand clockHand degrees pivotSize)
    = (height (back clockHand) + height (frontBase clockHand))%float
  ∧ ∀ front' : HandSubPart,
      let clockHand' := {| front := front';
                           frontBase := frontBase clockHand;
                           back := back clockHand |} in
      hand_width (ClockHand clockHand' degrees pivotSize)
      = hand_width (ClockHand clockHand degrees pivotSize)
      ∧ hand_height (ClockHand clockHand' degrees pivotSize)
        = hand_height (ClockHand clockHand degrees pivotSize).
Proof.
  split_and!; try done.
  - apply Math_max_spec.
  - intros Hnan. cbn [ClockHand hand_width]. unfold resolvedHandWidth, Math_max.
    by rewrite Hnan.
Qed.

Lemma hand_bounding_box_witness :
  PrimFloat.is_nan (width (frontBase Faces.wide_back))
  || PrimFloat.is_nan (width (back Faces.wide_back)) = false
  ∧ (hand_width (ClockHand Faces.wide_back 0 20)
     = width (frontBase Faces.wide_back)
     ∨ hand_width (ClockHand Faces.wide_back 0 20)
       = width (back Faces.wide_back))
  ∧ PrimFloat.leb (width (frontBase Faces.wide_back))
      (hand_width (ClockHand Faces.wide_back 0 20)) = true
  ∧ PrimFloat.leb (width (back Faces.wide_back))
      (hand_width (ClockHand Faces.wide_back 0 20)) = true.
Proof.
  split; [reflexivity|].
  destruct (hand_bounding_box Faces.wide_back 0 20) as (_ & Hmax & _).
  apply Hmax. reflexivity.
Defined.

Example hourHand_bounding_box :
  hand_width (ClockHand hourHand 0 20) = 4%float
  ∧ hand_height (ClockHand hourHand 0 20) = 144%float
  ∧ Math_max 4 12 = 12%float ∧ Math_max 12 4 = 12%float.
Proof. split_and!; reflexivity. Qed.

Lemma run_static (s : Interface) (es : list event) :
  forallb keeps_static es = true →
  interval s = false →
  degRotations (run s es) = degRotations s ∧ interval (run s es) = false.
Proof.
  revert s. induction es as [|e es IH]; intros s Hes Hs; [done|].
  simpl in Hes. apply andb_true_iff in Hes as [He Hes].
  assert (Hstep : degRotations (step s e) = degRotations s
                  ∧ interval (step s e) = false).
  { destruct e as [time dynamic| |]; simpl in *.
    - apply negb_true_iff in He as ->. by split.
    - by rewrite Hs.
    - by split. }
  destruct Hstep as [Hdeg Hint].
  destruct (IH (step s e) Hes Hint) as [IH1 IH2].
  unfold run in *. simpl. by rewrite IH1, Hdeg.
Qed.

(** C10. While [dynamic] is off the rotation state is never set from the
    supplied time: an update with [dynamic] off leaves the angles alone and
    arms no timer; an interface mounted with [dynamic] off starts with the
    three angles at 0 and keeps them there through every later event that
    leaves [dynamic] off, so the supplied time is never shown. *)
Theorem static_clock_stays_at_zero (time : Date) (es : list event) :
  forallb keeps_static es = true →
  (∀ (s : Interface) (time' : Date),
     degRotations (step s (Update time' false)) = degRotations s
     ∧ interval (step s (Update time' false)) = false)
  ∧ degRotations (mount time false) = {| hour := 0; minute := 0; second := 0 |}
  ∧ degRotations (run (mount time false) es)
    = {| hour := 0; minute := 0; second := 0 |}
  ∧ interval (run (mount time false) es) = false.
Proof.
  intros Hes. split; [by intros s time'|]. split; [done|].
  by destruct (run_static (mount time false) es Hes eq_refl) as [-> ->].
Qed.

Lemma static_clock_stays_at_zero_witness :
  forallb keeps_static
    [TimerFires; Update at_05_30_30 false; TimerFires; Unmount] = true
  ∧ degRotations
      (run (mount at_03_15_30 false)
         [TimerFires; Update at_05_30_30 false; TimerFires; Unmount])
    = {| hour := 0; minute := 0; second := 0 |}.
Proof.
  split; [reflexivity|].
  apply (static_clock_stays_at_zero at_03_15_30
           [TimerFires; Update at_05_30_30 false; TimerFires; Unmount]).
  reflexivity.
Defined.

(** The same through [Clock]: with [{interface: {dynamic: false}}] the hands
    stay at 0 although a time was given. *)
Example static_clock_through_options :
  match Clock 4 static_user.1 static_user.2 at_03_15_30 with
  | Ok (_, _, ws, i) =>
      ws = [] ∧ i = initialState
  | _ => False
  end.
Proof. vm_compute. by split. Qed.

(** C1. The source has no discrete mode.  A caller who sets the documented
    [showDiscreteTime] option gets it dropped by [defaultFill] (the key is
    not in [OPTIONS]) and at 05:30:30 sees the continuous angles 165 and
    183, not the 150 and 180 of the discrete formula; only at times such as
    05:00:00 do the two agree (150 and 0). *)
Theorem discrete_mode_is_missing :
  match Clock 4 discrete_user.1 discrete_user.2 at_05_30_30 with
  | Ok (h', normalizedOptions, ws, i) =>
      has h' (get h' normalizedOptions "interface") "showDiscreteTime" = false
      ∧ ws = []
      ∧ hour (degRotations i) = 165%float
      ∧ minute (degRotations i) = 183%float
  | _ => False
  end
  ∧ (num (Z.rem (getHours at_05_30_30) 12) / 12 * 360 = 150)%float
  ∧ (num (getMinutes at_05_30_30) / 60 * 360 = 180)%float
  ∧ hour (degRotations (mount at_05_00_00 true)) = 150%float
  ∧ minute (degRotations (mount at_05_00_00 true)) = 0%float.
Proof. vm_compute. by split_and!. Qed.

(** * The configuration merger *)

Section DeepEquality.
Implicit Types (h : heap) (a b d r : value).

Lemma deep_eq_S n h a b : deep_eq n h a b → deep_eq (S n) h a b.
Proof.
  revert a b. induction n as [|n IH]; intros a b [->|Hab];
    try (by left).
  destruct a, b; try done.
  destruct Hab as (Hl & Hl0 & Hkind & Hkeys & Hsub).
  right. split_and!; try done. intros key Hkey. by apply IH, Hsub.
Qed.

(** A copy is deeply equal to its original. *)
Lemma Cloned_deep_eq F n h d h' r :
  extends h h' → closed h = true → valid h d = true →
  Cloned F n h d h' r → deep_eq n h' d r.
Proof.
  intros Hext Hc. revert d r.
  induction n as [|n IH]; intros d r Hd Hcl.
  - destruct d; simpl in Hcl; try done; subst; by left.
  - destruct d; simpl in Hcl; try (subst; by left).
    destruct Hcl as (lr & -> & _ & Hlr & Hkind & Hkeys & Hsub).
    apply valid_ref in Hd as Hl.
    pose proof (extends_length _ _ Hext) as Hlen.
    right. split_and!; try lia.
    + by rewrite (extends_lookup_obj h h').
    + by rewrite (view_keys h h').
    + intros key Hkey. rewrite (view_keys h h') in Hkey by done.
      rewrite (view_get h h') by done.
      apply IH; [by apply valid_get|by apply Hsub].
Qed.
End DeepEquality.

Lemma cloneable_record_fuel n (h : heap) d :
  cloneable n h d = true → isObject h d = true → ∃ n', n = S n'.
Proof.
  intros Hcl Hobj.
  apply isObject_not_prim in Hobj as [l ->];
    [|by eapply cloneable_not_native].
  destruct n; [done|eauto].
Qed.

Section Mismatch.
Context (h h' : heap) (Hext : extends h h') (Hc : closed h = true).

Lemma warnings_key n d u key v :
  isObject h d = true → isObject h u = true → hasOwn h d key = true →
  v ∈ (if has h u key && negb (is_undefined (get h u key)) then
         if negb (String.eqb (typeof h (get h d key))
                    (typeof h (get h u key)))
         then [get h u key]
         else if isObject h (get h d key)
              then warnings n h (get h d key) (get h u key)
              else []
       else []) →
  v ∈ warnings (S n) h d u.
Proof.
  intros Hdo Huo Hkey Hv. cbn [warnings]. rewrite Hdo, Huo. simpl.
  apply list_elem_of_In, in_flat_map. exists key.
  split; [by apply list_elem_of_In, hasOwn_keys|by apply list_elem_of_In].
Qed.

(** Along a path on which the user's records override the default's, down
    to a key whose values differ in [typeof]: the user's value is among the
    warnings and the result holds a copy of the default's value. *)
Lemma Filled_mismatch F path :
  ∀ n d u r,
    valid h d = true → valid h u = true →
    mismatch_at h d u path = true →
    Filled F n h d u h' r →
    get_path h u path ∈ warnings n h d u
    ∧ deep_eq n h' (get_path h d path) (get_path h' r path).
Proof.
  induction path as [|key rest IH]; intros n d u r Hd Hu Hmis Hf; [done|].
  cbn [mismatch_at] in Hmis.
  apply andb_true_iff in Hmis as [Hmis Hrest].
  apply andb_true_iff in Hmis as [Hmis Hund].
  apply andb_true_iff in Hmis as [Hmis Hhasu].
  apply andb_true_iff in Hmis as [Hmis Hhasd].
  apply andb_true_iff in Hmis as [Hdo Huo].
  destruct n as [|n]; cbn [Filled] in Hf; rewrite Hdo, Huo in Hf;
    simpl in Hf; [done|].
  destruct Hf as (lr & -> & _ & _ & _ & _ & Hsub).
  specialize (Hsub key (proj1 (hasOwn_keys _ _ _) Hhasd)).
  unfold overrides in Hsub.
  rewrite Hhasu, Hund in Hsub. simpl in Hsub.
  pose proof (valid_get h d key Hc) as Hdk.
  pose proof (valid_get h u key Hc) as Huk.
  cbn [get_path]. destruct rest as [|key2 rest].
  - apply negb_true_iff in Hrest. rewrite Hrest in Hsub. split.
    + apply (warnings_key n d u key); try done.
      rewrite Hhasu, Hund, Hrest. simpl. apply list_elem_of_In. by left.
    + apply deep_eq_S. by eapply Cloned_deep_eq.
  - assert (Hko : isObject h (get h d key) = true
                  ∧ isObject h (get h u key) = true).
    { cbn [mismatch_at] in Hrest. rewrite !andb_true_iff in Hrest. tauto. }
    destruct Hko as [Hdko Huko].
    assert (Htype : String.eqb (typeof h (get h d key))
                      (typeof h (get h u key)) = true).
    { apply String.eqb_eq. by rewrite !isObject_typeof. }
    rewrite Htype, Hdko in Hsub.
    destruct (IH n _ _ _ Hdk Huk Hrest Hsub) as [IHw IHd]. split.
    + apply (warnings_key n d u key); try done.
      by rewrite Hhasu, Hund, Htype, Hdko.
    + by apply deep_eq_S.
Qed.
End Mismatch.

(** C3. Where the user supplies, for a field of the default tree, a value
    whose [typeof] differs from that of the default's value, [defaultFill]
    does not throw: it returns, having printed a warning for that value, and
    the result holds a copy of the default's value in that field.  With the
    default [OPTIONS] ([face.padding = 0]) and the user value
    [{face: {padding: "10"}}] the result has [face.padding = 0] and exactly
    one warning was printed. *)
Theorem type_mismatch_keeps_default :
  (∀ n (h : heap) d u path,
     closed h = true → valid h u = true → cloneable n h d = true →
     mismatch_at h d u path = true →
     ∃ h' r ws, defaultFill n h d u = Ok (h', r, ws)
       ∧ get_path h u path ∈ ws
       ∧ deep_eq n h' (get_path h d path) (get_path h' r path))
  ∧ match defaultFill 4 padding_user.1 OPTIONS padding_user.2 with
    | Ok (h', r, ws) =>
        get_path h' r ["face"; "padding"] = VNum 0 ∧ ws = [VStr "10"]
    | _ => False
    end.
Proof.
  split; [|vm_compute; by split].
  intros n h d u path Hc Hu Hcl Hmis.
  pose proof (cloneable_valid _ _ _ Hcl) as Hd.
  destruct (defaultFill_spec n h d u Hc Hd Hu Hcl)
    as (h' & r & Hrun & Hext & Hc' & Hr & Hf).
  exists h', r, (warnings n h d u). split; [done|].
  by apply (Filled_mismatch h h' Hext Hc (fresh_from h) path n d u r).
Qed.

Lemma type_mismatch_keeps_default_witness :
  closed padding_user.1 = true
  ∧ valid padding_user.1 padding_user.2 = true
  ∧ cloneable 4 padding_user.1 OPTIONS = true
  ∧ mismatch_at padding_user.1 OPTIONS padding_user.2 ["face"; "padding"]
    = true
  ∧ ∃ h' r ws,
      defaultFill 4 padding_user.1 OPTIONS padding_user.2 = Ok (h', r, ws)
      ∧ get_path padding_user.1 padding_user.2 ["face"; "padding"] ∈ ws
      ∧ deep_eq 4 h' (get_path padding_user.1 OPTIONS ["face"; "padding"])
          (get_path h' r ["face"; "padding"]).
Proof.
  split_and!; try reflexivity.
  destruct type_mismatch_keeps_default as [Hgeneral _].
  apply (Hgeneral 4 padding_user.1 OPTIONS padding_user.2 ["face"; "padding"]);
    reflexivity.
Defined.

(** Where the two values differ in kind but not in [typeof], as with [null]
    for a record, the code sees no mismatch: nothing is printed, and the
    record default is kept all the same. *)
Example null_for_a_record_is_silent :
  let '(h, u) := alloc OPTIONS_heap (LObj [("face", LNull)]) in
  match defaultFill 4 h OPTIONS u with
  | Ok (h', r, ws) =>
      ws = [] ∧ get_path h' r ["face"; "padding"] = VNum 0
  | _ => False
  end.
Proof. vm_compute. by split. Qed.

(** A deep override reaches the field it names and leaves its siblings at
    their defaults. *)
Example deep_override :
  match defaultFill 4 blue_user.1 OPTIONS blue_user.2 with
  | Ok (h', r, ws) =>
      ws = []
      ∧ get_path h' r ["interface"; "hourHand"; "front"; "background"]
        = VStr "blue"
      ∧ get_path h' r ["interface"; "hourHand"; "front"; "radius"] = VNum 4
      ∧ get_path h' r ["interface"; "hourHand"; "back"; "background"]
        = VStr "grey"
  | _ => False
  end.
Proof. vm_compute. by split_and!. Qed.

(** Deep equality tells values apart. *)
Example deep_eq_discriminates (h : heap) :
  ¬ deep_eq 4 h (VNum 0) (VStr "10").
Proof. by intros [?|?]. Qed.

(** C5. Shape completeness: whatever the user passes, the merged value has
    the shape of the default: the same [typeof], and for a record the same
    keys, each holding a value of the shape of the default's. *)
Theorem shape_completeness n (h : heap) d u :
  closed h = true → valid h u = true → cloneable n h d = true →
  ∃ h' r ws, defaultFill n h d u = Ok (h', r, ws) ∧ same_shape n h d h' r.
Proof.
  intros Hc Hu Hcl. pose proof (cloneable_valid _ _ _ Hcl) as Hd.
  destruct (defaultFill_spec n h d u Hc Hd Hu Hcl)
    as (h' & r & Hrun & Hext & Hc' & Hr & Hf).
  exists h', r, (warnings n h d u). split; [done|].
  by apply (Filled_same_shape (fresh_from h) n h d u h' r).
Qed.

Lemma shape_completeness_witness :
  closed padding_user.1 = true
  ∧ valid padding_user.1 padding_user.2 = true
  ∧ cloneable 4 padding_user.1 OPTIONS = true
  ∧ ∃ h' r ws,
      defaultFill 4 padding_user.1 OPTIONS padding_user.2 = Ok (h', r, ws)
      ∧ same_shape 4 padding_user.1 OPTIONS h' r.
Proof.
  split_and!; try reflexivity.
  apply (shape_completeness 4 padding_user.1 OPTIONS padding_user.2);
    reflexivity.
Defined.

(** C4. Idempotence: merging the result of a merge into the default again
    returns a value deeply equal to that result. *)
Theorem merge_idempotent n (h : heap) d u :
  closed h = true → valid h u = true → cloneable n h d = true →
  ∃ h1 m ws1 h2 m2 ws2,
    defaultFill n h d u = Ok (h1, m, ws1)
    ∧ defaultFill n h1 d m = Ok (h2, m2, ws2)
    ∧ deep_eq n h2 m m2.
Proof.
  intros Hc Hu Hcl. pose proof (cloneable_valid _ _ _ Hcl) as Hd.
  destruct (defaultFill_spec n h d u Hc Hd Hu Hcl)
    as (h1 & m & Hrun1 & Hext1 & Hc1 & Hm & Hf1).
  destruct (defaultFill_spec n h1 d m Hc1 (view_valid _ _ Hext1 _ Hd) Hm
              (cloneable_base _ _ _ _ Hext1 Hcl))
    as (h2 & m2 & Hrun2 & Hext2 & Hc2 & Hm2 & Hf2).
  exists h1, m, (warnings n h d u), h2, m2, (warnings n h1 d m).
  split_and!; try done.
  by apply (Filled_twice h h1 h2) with
    (F := fresh_from h) (F2 := fresh_from h1) (d := d) (u := u).
Qed.

Lemma merge_idempotent_witness :
  closed padding_user.1 = true
  ∧ valid padding_user.1 padding_user.2 = true
  ∧ cloneable 4 padding_user.1 OPTIONS = true
  ∧ ∃ h1 m ws1 h2 m2 ws2,
      defaultFill 4 padding_user.1 OPTIONS padding_user.2 = Ok (h1, m, ws1)
      ∧ defaultFill 4 h1 OPTIONS m = Ok (h2, m2, ws2)
      ∧ deep_eq 4 h2 m m2.
Proof.
  split_and!; try reflexivity.
  apply (merge_idempotent 4 padding_user.1 OPTIONS padding_user.2);
    reflexivity.
Defined.


(** Fields of the default tree and what the result holds there. *)

Section Fields.
Context (h h' : heap) (Hext : extends h h') (Hc : closed h = true).
Implicit Types (d u r : value) (F : loc → Prop).

Lemma deep_eq_le n m (h0 : heap) a b :
  n ≤ m → deep_eq n h0 a b → deep_eq m h0 a b.
Proof. induction 1; [done|]. intros Hab. by apply deep_eq_S, IHle. Qed.

(** What the result of a merge of two records holds under a key of the
    default. *)
Lemma Filled_at_key F n d u r key :
  isObject h d = true → isObject h u = true → hasOwn h d key = true →
  Filled F (S n) h d u h' r →
  if overrides h d u key then
    if isObject h (get h d key)
    then Filled F n h (get h d key) (get h u key) h' (get h' r key)
    else get h' r key = get h u key
  else Cloned F n h (get h d key) h' (get h' r key).
Proof.
  intros Hdo Huo Hkey Hf. cbn [Filled] in Hf. rewrite Hdo, Huo in Hf.
  simpl in Hf. destruct Hf as (lr & -> & _ & _ & _ & _ & Hsub).
  apply Hsub. by apply hasOwn_keys.
Qed.

(** Walking down a path of overridden records ends in a merge of two
    records, one level above the last key. *)
Lemma Filled_field_at F final path :
  ∀ n d u r,
    valid h d = true → valid h u = true →
    field_at final h d u path = true →
    Filled F n h d u h' r →
    ∃ n' d' u' r' key,
      n' < n ∧ valid h d' = true ∧ valid h u' = true
      ∧ isObject h d' = true ∧ isObject h u' = true
      ∧ hasOwn h d' key = true ∧ final h d' u' key = true
      ∧ Filled F (S n') h d' u' h' r'
      ∧ get_path h d path = get h d' key
      ∧ get_path h u path = get h u' key
      ∧ get_path h' r path = get h' r' key.
Proof.
  induction path as [|key rest IH]; intros n d u r Hd Hu Hat Hf; [done|].
  cbn [field_at] in Hat.
  apply andb_true_iff in Hat as [Hat Hrest].
  apply andb_true_iff in Hat as [Hat Hhasd].
  apply andb_true_iff in Hat as [Hdo Huo].
  destruct n as [|n].
  { cbn [Filled] in Hf. by rewrite Hdo, Huo in Hf. }
  destruct rest as [|key2 rest].
  - exists n, d, u, r, key. split_and!; try done. lia.
  - apply andb_true_iff in Hrest as [Hrest Hsub].
    apply andb_true_iff in Hrest as [Hhasu Hund].
    pose proof (valid_get h d key Hc) as Hdk.
    pose proof (valid_get h u key Hc) as Huk.
    assert (Hko : isObject h (get h d key) = true
                  ∧ isObject h (get h u key) = true).
    { cbn [field_at] in Hsub. rewrite !andb_true_iff in Hsub. tauto. }
    destruct Hko as [Hdko Huko].
    pose proof (Filled_at_key F n d u r key Hdo Huo Hhasd Hf) as Hk.
    unfold overrides in Hk. rewrite Hhasu, Hund in Hk.
    rewrite (isObject_typeof _ _ Hdko), (isObject_typeof _ _ Huko), Hdko in Hk.
    simpl in Hk.
    destruct (IH n _ _ _ Hdk Huk Hsub Hk)
      as (n' & d' & u' & r' & key' & Hlt & IHrest).
    exists n', d', u', r', key'. split; [lia|]. exact IHrest.
Qed.
End Fields.

Section FreshFields.
Context (h h' : heap).
Implicit Types (d u r : value) (F : loc → Prop).




End FreshFields.



(** * Further properties of the configuration merger *)


(** X1. A field that the default has and the user's value leaves out, or
    sets to [undefined], keeps the default: the result holds a deep copy of
    the default's value there, deeply equal to it and made of new objects
    only.  A key counts as left out when the user's record neither has it
    nor inherits it. *)
Theorem absent_field_keeps_default n (h : heap) d u path :
  closed h = true → valid h u = true → cloneable n h d = true →
  field_at absent h d u path = true →
  ∃ h' r ws, defaultFill n h d u = Ok (h', r, ws)
    ∧ deep_eq n h' (get_path h d path) (get_path h' r path)
    ∧ ∀ l, reach h' (get_path h' r path) l → length h ≤ l.
Proof.
  intros Hc Hu Hcl Hat. pose proof (cloneable_valid _ _ _ Hcl) as Hd.
  destruct (defaultFill_spec n h d u Hc Hd Hu Hcl)
    as (h' & r & Hrun & Hext & Hc' & Hr & Hf).
  exists h', r, (warnings n h d u). split; [done|].
  destruct (Filled_field_at h h' Hc (fresh_from h) absent path n d u r
              Hd Hu Hat Hf)
    as (n' & d' & u' & r' & key & Hlt & Hd' & Hu' & Hdo & Huo & Hkey & Hfin
        & Hf' & -> & _ & ->).
  pose proof (Filled_at_key h h' _ n' d' u' r' key Hdo Huo Hkey Hf') as Hk.
  unfold absent in Hfin. apply negb_true_iff in Hfin.
  unfold overrides in Hk. rewrite Hfin in Hk. simpl in Hk. split.
  - apply (deep_eq_le n'); [lia|].
    apply (Cloned_deep_eq (fresh_from h) n' h); try done. by apply valid_get.
  - intros l Hl.
    exact (Cloned_reach (fresh_from h) n' h _ h' _ l Hk Hl).
Qed.

Lemma absent_field_keeps_default_witness :
  closed padding_user.1 = true
  ∧ valid padding_user.1 padding_user.2 = true
  ∧ cloneable 4 padding_user.1 OPTIONS = true
  ∧ field_at absent padding_user.1 OPTIONS padding_user.2
      ["face"; "ticks"] = true
  ∧ ∃ h' r ws,
      defaultFill 4 padding_user.1 OPTIONS padding_user.2 = Ok (h', r, ws)
      ∧ deep_eq 4 h' (get_path padding_user.1 OPTIONS ["face"; "ticks"])
          (get_path h' r ["face"; "ticks"])
      ∧ ∀ l, reach h' (get_path h' r ["face"; "ticks"]) l →
             length padding_user.1 ≤ l.
Proof.
  split_and!; try reflexivity.
  apply (absent_field_keeps_default 4 padding_user.1 OPTIONS padding_user.2
           ["face"; "ticks"]); reflexivity.
Defined.

(** X2. A field whose default is not a record and for which the user gives
    a value of the same [typeof] holds, in the result, the user's value
    itself, at any depth. *)
Theorem override_takes_user_value n (h : heap) d u path :
  closed h = true → valid h u = true → cloneable n h d = true →
  field_at scalar_override h d u path = true →
  ∃ h' r ws, defaultFill n h d u = Ok (h', r, ws)
    ∧ get_path h' r path = get_path h u path.
Proof.
  intros Hc Hu Hcl Hat. pose proof (cloneable_valid _ _ _ Hcl) as Hd.
  destruct (defaultFill_spec n h d u Hc Hd Hu Hcl)
    as (h' & r & Hrun & Hext & Hc' & Hr & Hf).
  exists h', r, (warnings n h d u). split; [done|].
  destruct (Filled_field_at h h' Hc (fresh_from h) scalar_override path
              n d u r Hd Hu Hat Hf)
    as (n' & d' & u' & r' & key & Hlt & Hd' & Hu' & Hdo & Huo & Hkey & Hfin
        & Hf' & _ & -> & ->).
  pose proof (Filled_at_key h h' _ n' d' u' r' key Hdo Huo Hkey Hf') as Hk.
  unfold scalar_override in Hfin.
  apply andb_true_iff in Hfin as [Hov Hleaf].
  apply negb_true_iff in Hleaf. by rewrite Hov, Hleaf in Hk.
Qed.

Lemma override_takes_user_value_witness :
  closed blue_user.1 = true
  ∧ valid blue_user.1 blue_user.2 = true
  ∧ cloneable 4 blue_user.1 OPTIONS = true
  ∧ field_at scalar_override blue_user.1 OPTIONS blue_user.2
      ["interface"; "hourHand"; "front"; "background"] = true
  ∧ ∃ h' r ws,
      defaultFill 4 blue_user.1 OPTIONS blue_user.2 = Ok (h', r, ws)
      ∧ get_path h' r ["interface"; "hourHand"; "front"; "background"]
        = get_path blue_user.1 blue_user.2
            ["interface"; "hourHand"; "front"; "background"].
Proof.
  split_and!; try reflexivity.
  apply (override_takes_user_value 4 blue_user.1 OPTIONS blue_user.2
           ["interface"; "hourHand"; "front"; "background"]); reflexivity.
Defined.

(** X3. When the default or the user's value is not a record (the user
    passes [null], a number, an array, ...), the result is a deep copy of
    the default, deeply equal to it and made of new objects only, and
    nothing is printed. *)
Theorem not_a_record_copies_default n (h : heap) d u :
  closed h = true → valid h u = true → cloneable n h d = true →
  isObject h d && isObject h u = false →
  ∃ h' r, defaultFill n h d u = Ok (h', r, [])
    ∧ extends h h' ∧ deep_eq n h' d r
    ∧ ∀ l, reach h' r l → length h ≤ l.
Proof.
  intros Hc Hu Hcl Hobj. pose proof (cloneable_valid _ _ _ Hcl) as Hd.
  destruct (defaultFill_spec n h d u Hc Hd Hu Hcl)
    as (h' & r & Hrun & Hext & Hc' & Hr & Hf).
  exists h', r.
  assert (Hws : warnings n h d u = []) by (destruct n; cbn; by rewrite Hobj).
  assert (Hcloned : Cloned (fresh_from h) n h d h' r)
    by (destruct n; cbn [Filled] in Hf; by rewrite Hobj in Hf).
  rewrite Hws in Hrun. split_and!; try done.
  - by apply (Cloned_deep_eq (fresh_from h) n h).
  - intros l Hl. exact (Cloned_reach (fresh_from h) n h d h' r l Hcloned Hl).
Qed.

Lemma not_a_record_copies_default_witness :
  closed OPTIONS_heap = true
  ∧ valid OPTIONS_heap VNull = true
  ∧ cloneable 4 OPTIONS_heap OPTIONS = true
  ∧ isObject OPTIONS_heap OPTIONS && isObject OPTIONS_heap VNull = false
  ∧ ∃ h' r,
      defaultFill 4 OPTIONS_heap OPTIONS VNull = Ok (h', r, [])
      ∧ extends OPTIONS_heap h' ∧ deep_eq 4 h' OPTIONS r
      ∧ ∀ l, reach h' r l → length OPTIONS_heap ≤ l.
Proof.
  split_and!; try reflexivity.
  apply (not_a_record_copies_default 4 OPTIONS_heap OPTIONS VNull);
    reflexivity.
Defined.

Lemma flat_map_nil {A B} (f : A → list B) (l : list A) :
  (∀ x, x ∈ l → f x = []) → flat_map f l = [].
Proof.
  induction l as [|x l IH]; intros Hf; [done|]. simpl.
  rewrite (Hf x) by (apply elem_of_cons; by left).
  apply IH. intros y Hy. apply Hf, elem_of_cons. by right.
Qed.




(** The keys of a default may be names of [Object.prototype]: an empty
    user's record inherits a function under each, so with the default
    [{constructor: "x", toString: 1}] two warnings are printed, for
    [Object] and for [Object.prototype.toString], and the defaults are
    kept. *)
Example inherited_values_are_reported :
  match defaultFill 2 Prototypes.empty_user.1 Prototypes.named_default.2
          Prototypes.empty_user.2 with
  | Ok (h', r, ws) =>
      ws = [VNative (NativeFunction "Object");
            VNative (NativeFunction "Object.prototype.toString")]
      ∧ get h' r "constructor" = VStr "x"
      ∧ get h' r "toString" = VNum 1
  | _ => False
  end.
Proof. vm_compute. by split_and!. Qed.

Section Remerge.
Context (h h1 : heap).
Context (Hc : closed h = true) (Hc1 : closed h1 = true)
        (Hext1 : extends h h1).

(** The result of a merge holds, under every key, a value of the default's
    [typeof]: merging it again finds nothing to warn about. *)
Lemma Filled_warnings_nil F n :
  ∀ d u m,
    valid h d = true → valid h u = true → valid h1 m = true →
    Filled F n h d u h1 m → warnings n h1 d m = [].
Proof.
  induction n as [|n IH]; intros d u m Hd Hu Hm Hf; cbn [warnings].
  { by destruct (isObject h1 d && isObject h1 m). }
  destruct (isObject h1 d) eqn:Ed1; [|done].
  destruct (isObject h1 m) eqn:Em1; [|done]. simpl.
  rewrite (view_isObject h h1) in Ed1 by done.
  destruct (Filled_record h h1 Hc Hext1 F (S n) d u m Hd Hu Ed1 Hf)
    as (n' & [= <-] & _ & Hkeys & Hinfo).
  rewrite (view_keys h h1) by done.
  apply flat_map_nil. intros key Hkey.
  destruct (Hinfo key Hkey) as [Hrec Hleaf].
  pose proof (valid_get h d key Hc) as Hdk.
  pose proof (valid_get h1 m key Hc1) as Hmk.
  rewrite (view_get h h1 Hext1 d) by done.
  rewrite (view_typeof h h1 Hext1 (get h d key)),
    (view_isObject h h1 Hext1 (get h d key)) by done.
  destruct (has h1 m key && negb (is_undefined (get h1 m key))); [|done].
  destruct (isObject h (get h d key)) eqn:Ek.
  - destruct (Hrec eq_refl) as (ux & Hux & Hfk).
    pose proof (Filled_isObject _ _ _ _ _ _ _ Hfk Ek) as Hmko.
    rewrite (isObject_typeof _ _ Ek), (isObject_typeof _ _ Hmko). simpl.
    by apply (IH _ ux).
  - rewrite <- (Hleaf eq_refl), String.eqb_refl. done.
Qed.
End Remerge.

(** X5. A merged configuration is accepted as it is: merging the result of a
    merge again prints no warning. *)
Theorem remerge_is_silent n (h : heap) d u :
  closed h = true → valid h u = true → cloneable n h d = true →
  ∃ h1 m ws1 h2 m2,
    defaultFill n h d u = Ok (h1, m, ws1)
    ∧ defaultFill n h1 d m = Ok (h2, m2, []).
Proof.
  intros Hc Hu Hcl. pose proof (cloneable_valid _ _ _ Hcl) as Hd.
  destruct (defaultFill_spec n h d u Hc Hd Hu Hcl)
    as (h1 & m & Hrun1 & Hext1 & Hc1 & Hm & Hf1).
  destruct (defaultFill_spec n h1 d m Hc1 (view_valid _ _ Hext1 _ Hd) Hm
              (cloneable_base _ _ _ _ Hext1 Hcl))
    as (h2 & m2 & Hrun2 & _).
  exists h1, m, (warnings n h d u), h2, m2. split; [done|].
  by rewrite Hrun2,
    (Filled_warnings_nil h h1 Hc Hc1 Hext1 (fresh_from h) n d u m).
Qed.

Lemma remerge_is_silent_witness :
  closed padding_user.1 = true
  ∧ valid padding_user.1 padding_user.2 = true
  ∧ cloneable 4 padding_user.1 OPTIONS = true
  ∧ ∃ h1 m ws1 h2 m2,
      defaultFill 4 padding_user.1 OPTIONS padding_user.2 = Ok (h1, m, ws1)
      ∧ defaultFill 4 h1 OPTIONS m = Ok (h2, m2, []).
Proof.
  split_and!; try reflexivity.
  apply (remerge_is_silent 4 padding_user.1 OPTIONS padding_user.2);
    reflexivity.
Defined.

(** * Further properties of [Clock] and [ClockInterface] *)

Lemma take_extends (a h : heap) : take (length a) h = a → extends a h.
Proof.
  intros Htake l o Hl. rewrite <- Htake in Hl.
  apply lookup_take_Some in Hl. tauto.
Qed.

Lemma same_shape_base n (h hx : heap) d (h' : heap) r :
  extends h hx → closed h = true → valid h d = true →
  same_shape n hx d h' r ↔ same_shape n h d h' r.
Proof.
  intros Hext Hc. revert d r.
  induction n as [|n IH]; intros d r Hd; cbn [same_shape];
    rewrite (view_typeof h hx), (view_isObject h hx) by done; [done|].
  rewrite (view_keys h hx) by done.
  split; intros [Htype Hrec]; (split; [done|]); intros Hobj;
    destruct (Hrec Hobj) as (Hro & Hkeys & Hsub); split_and!; try done;
    intros key Hkey; specialize (Hsub key Hkey);
    pose proof (valid_get h d key Hc) as Hdk.
  - rewrite (view_get h hx) in Hsub by done. by apply IH in Hsub.
  - rewrite (view_get h hx) by done. by apply IH.
Qed.

Lemma OPTIONS_closed : closed OPTIONS_heap = true.
Proof. vm_compute. reflexivity. Qed.

Lemma OPTIONS_valid : valid OPTIONS_heap OPTIONS = true.
Proof. vm_compute. reflexivity. Qed.

Lemma typeof_boolean (h : heap) v :
  typeof h v = "boolean" → ∃ b, v = VBool b.
Proof.
  destruct v as [| | | | | | |l|[|]]; simpl; try done; [eauto|].
  by destruct (kind (lookup_obj h l)).
Qed.

(** In a result of the shape of [OPTIONS], [interface.dynamic] is a
    boolean. *)
Lemma OPTIONS_shape_dynamic (h' : heap) r :
  same_shape 4 OPTIONS_heap OPTIONS h' r →
  ∃ b, get_path h' r ["interface"; "dynamic"] = VBool b.
Proof.
  intros [_ Hrec]. destruct (Hrec eq_refl) as (_ & _ & Hsub).
  assert (Hi : "interface" ∈ keys OPTIONS_heap OPTIONS)
    by (apply list_elem_of_In; vm_compute; tauto).
  destruct (Hsub _ Hi) as [_ Hrec2].
  destruct (Hrec2 eq_refl) as (_ & _ & Hsub2).
  assert (Hdyn : "dynamic" ∈ keys OPTIONS_heap (get OPTIONS_heap OPTIONS "interface"))
    by (apply list_elem_of_In; vm_compute; tauto).
  destruct (Hsub2 _ Hdyn) as [Htype _].
  apply (typeof_boolean h'). cbn [get_path]. rewrite <- Htype. reflexivity.
Qed.

(** X6. [Clock] accepts whatever is passed as [options]: the normalisation
    does not throw, the normalised options have the shape of [OPTIONS], and
    the [dynamic] flag the interface is mounted with is the boolean found
    there. *)
Theorem Clock_accepts_any_options (h : heap) (options : value) (time : Date) :
  closed h = true → take (length OPTIONS_heap) h = OPTIONS_heap →
  valid h options = true →
  ∃ h' normalizedOptions ws dynamic,
    Clock 4 h options time = Ok (h', normalizedOptions, ws, mount time dynamic)
    ∧ extends h h'
    ∧ same_shape 4 OPTIONS_heap OPTIONS h' normalizedOptions
    ∧ get_path h' normalizedOptions ["interface"; "dynamic"] = VBool dynamic.
Proof.
  intros Hc Htake Hopt. pose proof (take_extends _ _ Htake) as Hbase. clear Htake.
  assert (Hstart : ∃ h0 u,
    (if is_undefined options || is_null options then alloc h (LObj [])
     else (h, options)) = (h0, u)
    ∧ extends h h0 ∧ closed h0 = true ∧ valid h0 u = true).
  { destruct (is_undefined options || is_null options).
    - exists (h ++ [Obj KPlain []]), (VRef (length h)). split_and!.
      + done.
      + apply extends_app.
      + apply closed_snoc; [done|]. intros kv Hkv. by apply elem_of_nil in Hkv.
      + apply valid_ref. rewrite length_app. simpl. lia.
    - exists h, options. split_and!; try done. apply extends_refl. }
  destruct Hstart as (h0 & u & Hstart & Hext0 & Hc0 & Hu).
  assert (Hbase0 : extends OPTIONS_heap h0) by by eapply extends_trans.
  assert (Hcl : cloneable 4 h0 OPTIONS = true)
    by by apply (cloneable_base 4 OPTIONS_heap).
  pose proof (cloneable_valid _ _ _ Hcl) as Hd.
  destruct (defaultFill_spec 4 h0 OPTIONS u Hc0 Hd Hu Hcl)
    as (h' & r & Hrun & Hext & Hc' & Hr & Hf).
  assert (Hshape : same_shape 4 OPTIONS_heap OPTIONS h' r).
  { exact (proj1 (same_shape_base 4 OPTIONS_heap h0 OPTIONS h' r Hbase0
                    OPTIONS_closed OPTIONS_valid)
             (Filled_same_shape (fresh_from h0) 4 h0 OPTIONS u h' r
                Hext Hc0 Hd Hu Hf)). }
  destruct (OPTIONS_shape_dynamic h' r Hshape) as [b Hb].
  exists h', r, (warnings 4 h0 OPTIONS u), b.
  refine (conj _ (conj (extends_trans _ _ _ Hext0 Hext) (conj Hshape Hb))).
  unfold Clock.Clock. rewrite Hstart, Hrun. cbn [mbind result_bind].
  cbn [get_path] in Hb. by rewrite Hb.
Qed.

Lemma Clock_accepts_any_options_witness :
  closed discrete_user.1 = true
  ∧ take (length OPTIONS_heap) discrete_user.1 = OPTIONS_heap
  ∧ valid discrete_user.1 discrete_user.2 = true
  ∧ ∃ h' normalizedOptions ws dynamic,
      Clock 4 discrete_user.1 discrete_user.2 at_05_30_30
      = Ok (h', normalizedOptions, ws, mount at_05_30_30 dynamic)
      ∧ extends discrete_user.1 h'
      ∧ same_shape 4 OPTIONS_heap OPTIONS h' normalizedOptions
      ∧ get_path h' normalizedOptions ["interface"; "dynamic"] = VBool dynamic.
Proof.
  split_and!; try reflexivity.
  apply (Clock_accepts_any_options discrete_user.1 discrete_user.2 at_05_30_30);
    reflexivity.
Defined.

(** X7. Once [dynamic] is turned off, or the interface is unmounted, the
    hands stay where they were: no timer is left, and whatever ticks and
    static updates follow, the angles are those of the state before. *)
Theorem stopping_freezes_the_hands (s : Interface) (e : event) (es : list event) :
  stops e = true → forallb keeps_static es = true →
  degRotations (run (step s e) es) = degRotations s
  ∧ interval (run (step s e) es) = false.
Proof.
  intros He Hes.
  assert (Hstep : degRotations (step s e) = degRotations s
                  ∧ interval (step s e) = false).
  { destruct e as [time dynamic| |]; simpl in *; try done.
    apply negb_true_iff in He as ->. by split. }
  destruct Hstep as [Hdeg Hint].
  destruct (run_static (step s e) es Hes Hint) as [-> ->]. by split.
Qed.

Lemma stopping_freezes_the_hands_witness :
  stops (Update at_05_00_00 false) = true
  ∧ forallb keeps_static [TimerFires; TimerFires; Unmount; TimerFires] = true
  ∧ degRotations
      (run (step (step (mount at_03_15_30 true) TimerFires)
              (Update at_05_00_00 false))
         [TimerFires; TimerFires; Unmount; TimerFires])
    = degRotations (step (mount at_03_15_30 true) TimerFires).
Proof.
  split; [reflexivity|]. split; [reflexivity|].
  apply (stopping_freezes_the_hands
           (step (mount at_03_15_30 true) TimerFires)
           (Update at_05_00_00 false)
           [TimerFires; TimerFires; Unmount; TimerFires]); reflexivity.
Defined.

(** * [Clock] without options *)

(** A merge in which the user's value has none of the default's keys, own
    or inherited, is a copy of the default, and prints nothing. *)
Lemma Filled_Cloned F n (h : heap) d u (h' : heap) r :
  d ≠ VNative ObjectPrototype →
  (∀ key, key ∈ keys h d → has h u key = false) →
  Filled F n h d u h' r → Cloned F n h d h' r.
Proof.
  intros Hd Hno Hf. destruct n; cbn [Filled] in Hf;
    destruct (isObject h d && isObject h u) eqn:E; try done.
  apply andb_true_iff in E as [Ed _].
  destruct (isObject_ref _ _ Ed Hd) as (ld & -> & Hkind).
  destruct Hf as (lr & -> & HF & Hlr & Hro & Hkeys & Hsub).
  cbn [Cloned]. exists lr. split_and!; try done.
  - rewrite Hkind. by apply isObject_kind.
  - intros key Hkey. specialize (Hsub key Hkey).
    unfold overrides in Hsub. by rewrite Hno in Hsub.
Qed.

Lemma warnings_no_property n (h : heap) d u :
  (∀ key, key ∈ keys h d → has h u key = false) → warnings n h d u = [].
Proof.
  intros Hno. destruct n; cbn [warnings];
    destruct (isObject h d && isObject h u); try done.
  apply flat_map_nil. intros key Hkey. by rewrite Hno.
Qed.

Lemma deep_eq_get n (h : heap) a b key :
  key ∈ keys h a → deep_eq (S n) h a b →
  deep_eq n h (get h a key) (get h b key).
Proof.
  intros Hkey [->|Hab]; [apply deep_eq_refl|].
  destruct a, b; try done.
  destruct Hab as (_ & _ & _ & _ & Hsub). by apply Hsub.
Qed.

Lemma deep_eq_boolean n (h : heap) b v : deep_eq n h (VBool b) v → v = VBool b.
Proof. destruct n; by intros [<-|[]]. Qed.

(** X8. [<Clock />] without options, or with [options] [null], runs on the
    defaults: the normalised options are a deep copy of [OPTIONS] (deeply
    equal to it, and made of new objects only), nothing is printed, and the
    interface is mounted dynamic with the time given.  The empty record that
    stands for the missing options inherits the properties of
    [Object.prototype], none of which is a key of [OPTIONS]. *)
Theorem Clock_without_options (h : heap) (options : value) (time : Date) :
  closed h = true → take (length OPTIONS_heap) h = OPTIONS_heap →
  is_undefined options || is_null options = true →
  ∃ h' normalizedOptions,
    Clock 4 h options time = Ok (h', normalizedOptions, [], mount time true)
    ∧ extends h h'
    ∧ deep_eq 4 h' OPTIONS normalizedOptions
    ∧ ∀ l, reach h' normalizedOptions l → length h ≤ l.
Proof.
  intros Hc Htake Hopt. pose proof (take_extends _ _ Htake) as Hbase.
  clear Htake.
  set (h0 := h ++ [Obj KPlain []]). set (u := VRef (length h)).
  assert (Hext0 : extends h h0) by apply extends_app.
  assert (Hc0 : closed h0 = true).
  { apply closed_snoc; [done|]. intros kv Hkv. by apply elem_of_nil in Hkv. }
  assert (Hu : valid h0 u = true).
  { apply valid_ref. unfold h0. rewrite length_app. simpl. lia. }
  assert (Hbase0 : extends OPTIONS_heap h0)
    by exact (extends_trans _ _ _ Hbase Hext0).
  assert (Hhas : ∀ key, has h0 u key = Object_prototype_has key).
  { intros key. unfold has, u, h0, lookup_obj.
    by rewrite lookup_app_r, Nat.sub_diag by lia. }
  assert (Hno : ∀ key, key ∈ keys h0 OPTIONS → has h0 u key = false).
  { intros key.
    rewrite (view_keys OPTIONS_heap h0 Hbase0) by exact OPTIONS_valid.
    rewrite Hhas. intros Hkey. apply list_elem_of_In in Hkey.
    vm_compute in Hkey. by destruct Hkey as [<-|[<-|[<-|[]]]]. }
  assert (Hcl : cloneable 4 h0 OPTIONS = true).
  { apply (cloneable_base 4 OPTIONS_heap); [done|]. by vm_compute. }
  pose proof (cloneable_valid _ _ _ Hcl) as Hd.
  destruct (defaultFill_spec 4 h0 OPTIONS u Hc0 Hd Hu Hcl)
    as (h' & r & Hrun & Hext & Hc' & Hr & Hf).
  rewrite (warnings_no_property 4 h0 OPTIONS u Hno) in Hrun.
  apply (Filled_Cloned _ _ _ _ _ _ _
           (cloneable_not_native _ _ _ _ Hcl) Hno) in Hf.
  pose proof (Cloned_deep_eq _ _ _ _ _ _ Hext Hc0 Hd Hf) as Heq.
  assert (Hbase' : extends OPTIONS_heap h')
    by exact (extends_trans _ _ _ Hbase0 Hext).
  assert (Hdyn : get h' (get h' r "interface") "dynamic" = VBool true).
  { assert (Hi : "interface" ∈ keys h' OPTIONS).
    { rewrite (view_keys OPTIONS_heap h' Hbase') by exact OPTIONS_valid.
      apply list_elem_of_In. vm_compute. tauto. }
    pose proof (deep_eq_get 3 h' OPTIONS r "interface" Hi Heq) as Heq1.
    rewrite (view_get OPTIONS_heap h' Hbase') in Heq1 by exact OPTIONS_valid.
    assert (Hv : valid OPTIONS_heap (get OPTIONS_heap OPTIONS "interface") = true)
      by by vm_compute.
    assert (Hk : "dynamic" ∈ keys h' (get OPTIONS_heap OPTIONS "interface")).
    { rewrite (view_keys OPTIONS_heap h' Hbase') by exact Hv.
      apply list_elem_of_In. vm_compute. tauto. }
    pose proof (deep_eq_get 2 h' _ _ "dynamic" Hk Heq1) as Heq2.
    rewrite (view_get OPTIONS_heap h' Hbase') in Heq2 by exact Hv.
    exact (deep_eq_boolean 2 h' true _ Heq2). }
  exists h', r. split_and!.
  - unfold Clock.Clock. rewrite Hopt.
    change (alloc h (LObj [])) with (h0, u). cbv beta iota.
    rewrite Hrun. cbn [mbind result_bind]. by rewrite Hdyn.
  - exact (extends_trans _ _ _ Hext0 Hext).
  - exact Heq.
  - intros l Hl. pose proof (extends_length _ _ Hext0) as Hlen.
    pose proof (Cloned_reach _ _ _ _ _ _ _ Hf Hl) as Hfresh.
    unfold fresh_from in Hfresh. lia.
Qed.

Lemma Clock_without_options_witness :
  closed OPTIONS_heap = true
  ∧ take (length OPTIONS_heap) OPTIONS_heap = OPTIONS_heap
  ∧ is_undefined VUndefined || is_null VUndefined = true
  ∧ ∃ h' normalizedOptions,
      Clock 4 OPTIONS_heap VUndefined at_03_15_30
        = Ok (h', normalizedOptions, [], mount at_03_15_30 true)
      ∧ extends OPTIONS_heap h'
      ∧ deep_eq 4 h' OPTIONS normalizedOptions
      ∧ ∀ l, reach h' normalizedOptions l → length OPTIONS_heap ≤ l.
Proof.
  split_and!; try reflexivity.
  apply (Clock_without_options OPTIONS_heap VUndefined at_03_15_30);
    reflexivity.
Defined.

(** * The angles at mount *)

Lemma upto_forallb (P : Z → bool) (n : nat) (z : Z) :
  forallb P (upto n) = true → (0 ≤ z < Z.of_nat n)%Z → P z = true.
Proof.
  intros Hall Hz. rewrite forallb_forall in Hall. apply Hall.
  unfold upto. apply in_map_iff. exists (Z.to_nat z).
  split; [lia|]. apply in_seq. lia.
Qed.

(** X9. When the interface is mounted dynamic with a time of day, each hand
    starts within one turn: its angle is at least 0 and below 360. *)
Theorem mounted_angles_within_a_turn (time : Date) :
  (0 ≤ getHours time < 24)%Z →
  (0 ≤ getMinutes time < 60)%Z →
  (0 ≤ getSeconds time < 60)%Z →
  within_a_turn (hour (degRotations (mount time true))) = true
  ∧ within_a_turn (minute (degRotations (mount time true))) = true
  ∧ within_a_turn (second (degRotations (mount time true))) = true.
Proof.
  destruct time as [h m s]. cbn [getHours getMinutes getSeconds].
  intros Hh Hm Hs.
  change (within_a_turn (initialHourDeg (Build_Date h m s)) = true
          ∧ within_a_turn (initialMinuteDeg (Build_Date h m s)) = true
          ∧ within_a_turn (initialSecondDeg (Build_Date h m s)) = true).
  split_and!.
  - apply (upto_forallb
             (λ m, within_a_turn (initialHourDeg (Build_Date h m 0))) 60 m);
      [|done].
    apply (upto_forallb
             (λ h, forallb
                     (λ m, within_a_turn (initialHourDeg (Build_Date h m 0)))
                     (upto 60)) 24 h); [|done].
    vm_compute. reflexivity.
  - apply (upto_forallb
             (λ s, within_a_turn (initialMinuteDeg (Build_Date 0 m s))) 60 s);
      [|done].
    apply (upto_forallb
             (λ m, forallb
                     (λ s, within_a_turn (initialMinuteDeg (Build_Date 0 m s)))
                     (upto 60)) 60 m); [|done].
    vm_compute. reflexivity.
  - apply (upto_forallb
             (λ s, within_a_turn (initialSecondDeg (Build_Date 0 0 s))) 60 s);
      [|done].
    vm_compute. reflexivity.
Qed.

Lemma mounted_angles_within_a_turn_witness :
  within_a_turn (hour (degRotations (mount at_05_30_30 true))) = true
  ∧ within_a_turn (minute (degRotations (mount at_05_30_30 true))) = true
  ∧ within_a_turn (second (degRotations (mount at_05_30_30 true))) = true.
Proof.
  apply (mounted_angles_within_a_turn at_05_30_30); simpl; lia.
Defined.

(** * Properties of [PerimeterPlacer] *)

Section PerimeterFacts.
Import Perimeter.
Context (ticks : TicksOptions) (apparentClockRadius : float)
        (counts : CountsOptions).

Lemma PerimeterPlacer_length :
  length (PerimeterPlacer ticks apparentClockRadius counts) = 60.
Proof. unfold PerimeterPlacer. by rewrite length_map, length_seq. Qed.

(** The entry at index [i], with the level found by whole-number
    arithmetic. *)
Lemma PerimeterPlacer_lookup i :
  i < 60 →
  PerimeterPlacer ticks apparentClockRadius counts !! i
  = Some
      (let tick := ticks_at ticks (level_of i) in
       if Nat.eqb (i mod 5) 0 || tick_show (ticks_regular ticks) then
         Some {| tick_index := i;
                 center_to_tick_hypotenuse :=
                   (apparentClockRadius - tick_height tick / 2)%float;
                 degree := (6 * num (Z.of_nat i))%float;
                 tick_height_px :=
                   if tick_show tick then tick_height tick else 0;
                 tick_width_px :=
                   if tick_show tick then tick_width tick else 0;
                 tick_view := Tick (tick_radius tick) (tick_background tick);
                 count_view :=
                   if counts_show counts && Nat.eqb (i mod 5) 0 then
                     Some (Count (if Nat.eqb i 0 then 12
                                  else num (Z.of_nat (i / 5)))
                             counts
                             (if Nat.eqb (i mod 15) 0 then Primary
                              else Secondary))
                   else None |}
       else None).
Proof.
  intros Hi.
  do 60 (destruct i as [|i];
         [unfold PerimeterPlacer; rewrite list_lookup_fmap; simpl;
          destruct (tick_show (ticks_regular ticks)), (counts_show counts);
          reflexivity|]).
  lia.
Qed.
End PerimeterFacts.

(** X10. The level of a tick follows from its position alone: of the 60
    positions the quarters (0, 15, 30, 45) take the primary configuration,
    the other multiples of 5 the secondary one, the rest the regular one.
    The tick sits at [6 * i] degrees, at a distance from the centre that
    counts half its configured height; a level that is switched off is drawn
    with size 0 at the same place. *)
Theorem tick_level_by_position (ticks : Perimeter.TicksOptions)
    (apparentClockRadius : float) (counts : Perimeter.CountsOptions)
    (i : nat) (p : Perimeter.Placed) :
  Perimeter.PerimeterPlacer ticks apparentClockRadius counts !! i
    = Some (Some p) →
  let tick := Perimeter.ticks_at ticks (Perimeter.level_of i) in
  Perimeter.tick_index p = i
  ∧ Perimeter.degree p = (6 * num (Z.of_nat i))%float
  ∧ Perimeter.center_to_tick_hypotenuse p
    = (apparentClockRadius - Perimeter.tick_height tick / 2)%float
  ∧ Perimeter.tick_view p
    = Perimeter.Tick (Perimeter.tick_radius tick)
        (Perimeter.tick_background tick)
  ∧ Perimeter.tick_height_px p
    = (if Perimeter.tick_show tick then Perimeter.tick_height tick
       else 0%float)
  ∧ Perimeter.tick_width_px p
    = (if Perimeter.tick_show tick then Perimeter.tick_width tick
       else 0%float).
Proof.
  intros Hp.
  assert (Hi : i < 60).
  { rewrite <- (PerimeterPlacer_length ticks apparentClockRadius counts).
    apply lookup_lt_is_Some. by eexists. }
  rewrite (PerimeterPlacer_lookup ticks apparentClockRadius counts i Hi) in Hp.
  cbv zeta in Hp.
  destruct (Nat.eqb (i mod 5) 0 || Perimeter.tick_show _); [|done].
  injection Hp as <-. done.
Qed.

Lemma tick_level_by_position_witness :
  ∃ p,
    Perimeter.PerimeterPlacer Faces.hidden_levels 200 Faces.default_counts !! 45
      = Some (Some p)
    ∧ Perimeter.tick_index p = 45
    ∧ Perimeter.degree p = (6 * num 45)%float
    ∧ Perimeter.center_to_tick_hypotenuse p = (200 - 36 / 2)%float
    ∧ Perimeter.tick_view p = Perimeter.Tick 3 "rgb(0 122 255)"
    ∧ Perimeter.tick_height_px p = 0%float
    ∧ Perimeter.tick_width_px p = 0%float.
Proof.
  eexists. split; [reflexivity|].
  apply (tick_level_by_position Faces.hidden_levels 200 Faces.default_counts
           45).
  reflexivity.
Defined.

(** X11. Switching the regular ticks off removes exactly the positions that
    are not multiples of 5; switching the secondary or primary ticks off
    removes nothing. *)
Theorem only_regular_ticks_can_be_removed (ticks : Perimeter.TicksOptions)
    (apparentClockRadius : float) (counts : Perimeter.CountsOptions)
    (i : nat) :
  i < 60 →
  Perimeter.PerimeterPlacer ticks apparentClockRadius counts !! i = Some None
  ↔ Perimeter.tick_show (Perimeter.ticks_regular ticks) = false
    ∧ i mod 5 ≠ 0.
Proof.
  intros Hi.
  rewrite (PerimeterPlacer_lookup ticks apparentClockRadius counts i Hi).
  cbv zeta.
  destruct (Nat.eqb_spec (i mod 5) 0) as [E|E],
    (Perimeter.tick_show (Perimeter.ticks_regular ticks));
    simpl; split; try done; intros [? ?]; done.
Qed.

Lemma only_regular_ticks_can_be_removed_witness :
  7 < 60
  ∧ (Perimeter.PerimeterPlacer Faces.hidden_levels 200 Faces.default_counts !! 7
     = Some None
     ↔ Perimeter.tick_show (Perimeter.ticks_regular Faces.hidden_levels) = false
       ∧ 7 mod 5 ≠ 0).
Proof.
  split; [lia|].
  apply (only_regular_ticks_can_be_removed Faces.hidden_levels 200
           Faces.default_counts 7).
  lia.
Defined.

(** X12. The numbers of the face: when [ticks.show] and [counts.show] are
    both on, the face shows 12, 1, 2, ..., 11 at the positions 0, 5, 10, ...,
    55, the numbers 12, 3, 6 and 9 in the primary style and the others in
    the secondary one; otherwise it shows none.  The [show] flag of a single
    count level, and those of the tick levels, take no part. *)
Theorem face_numbers (size padding : float) (ticks : Perimeter.TicksOptions)
    (counts : Perimeter.CountsOptions) :
  Perimeter.labels (Perimeter.ClockFace size padding ticks counts)
  = if Perimeter.ticks_show ticks && Perimeter.counts_show counts then
      map (λ '(i, number, level),
             (i, Perimeter.Count (num (Z.of_nat number)) counts level))
        [(0, 12, Perimeter.Primary); (5, 1, Perimeter.Secondary);
         (10, 2, Perimeter.Secondary); (15, 3, Perimeter.Primary);
         (20, 4, Perimeter.Secondary); (25, 5, Perimeter.Secondary);
         (30, 6, Perimeter.Primary); (35, 7, Perimeter.Secondary);
         (40, 8, Perimeter.Secondary); (45, 9, Perimeter.Primary);
         (50, 10, Perimeter.Secondary); (55, 11, Perimeter.Secondary)]
    else [].
Proof.
  unfold Perimeter.ClockFace.
  destruct (Perimeter.ticks_show ticks); [|done].
  unfold Perimeter.PerimeterPlacer, Perimeter.labels. simpl map.
  destruct (Perimeter.tick_show (Perimeter.ticks_regular ticks)),
    (Perimeter.counts_show counts); reflexivity.
Qed.

(** X13. At every full hour the hour hand points at its number: its angle
    when the interface is mounted is the angle of the tick at position
    [5 * (hours mod 12)], which is always drawn and, when the numbers are
    shown, carries the number of that hour (12 for 0 and 12 o'clock). *)
Theorem hour_hand_points_at_its_number (ticks : Perimeter.TicksOptions)
    (apparentClockRadius : float) (counts : Perimeter.CountsOptions)
    (hours : Z) :
  (0 ≤ hours < 24)%Z →
  let time := {| getHours := hours; getMinutes := 0; getSeconds := 0 |} in
  ∃ p,
    Perimeter.PerimeterPlacer ticks apparentClockRadius counts
      !! Z.to_nat (5 * (hours mod 12)) = Some (Some p)
    ∧ Perimeter.degree p = hour (degRotations (mount time true))
    ∧ (Perimeter.counts_show counts = true →
       ∃ c, Perimeter.count_view p = Some c
         ∧ Perimeter.Count_number c
           = num (if (hours mod 12 =? 0)%Z then 12 else hours mod 12)).
Proof.
  intros Hh time. subst time.
  assert (Hk : ∃ k : nat, k < 24 ∧ hours = Z.of_nat k)
    by (exists (Z.to_nat hours); lia).
  destruct Hk as (k & Hk & ->).
  do 24 (destruct k as [|k];
         [unfold Perimeter.PerimeterPlacer; rewrite list_lookup_fmap; simpl;
          eexists; split; [reflexivity|]; split; [reflexivity|];
          intros Hshow; simpl; rewrite Hshow; eexists; split; reflexivity|]).
  lia.
Qed.

Lemma hour_hand_points_at_its_number_witness :
  (0 ≤ 17 < 24)%Z
  ∧ ∃ p,
      Perimeter.PerimeterPlacer Faces.default_ticks 200 Faces.default_counts
        !! Z.to_nat (5 * (17 mod 12)) = Some (Some p)
      ∧ Perimeter.degree p
        = hour (degRotations
                  (mount {| getHours := 17; getMinutes := 0; getSeconds := 0 |}
                     true))
      ∧ (Perimeter.counts_show Faces.default_counts = true →
         ∃ c, Perimeter.count_view p = Some c
           ∧ Perimeter.Count_number c
             = num (if (17 mod 12 =? 0)%Z then 12 else 17 mod 12)).
Proof.
  split; [lia|].
  apply (hour_hand_points_at_its_number Faces.default_ticks 200
           Faces.default_counts 17).
  lia.
Defined.
